(** * SimplePRC-JS: the RPC client over one WebSocket

    A shallow embedding of the library classes (APIResponse, RPCNode,
    TimedCache) and of the client class [simple_rpc_client], followed by
    the properties of the dispatch layer.

    The repository holds the library twice: in [src/src/type.d.ts],
    which the client of [src/unnamed/part_001] imports, and in the
    one-file copy [src/unnamed/part_000], which also holds a copy of the
    client.  The two agree line by line except in [RPCNode.create]:
    the first constructs a class [RPCRouterNode] that is declared
    nowhere, so the call raises; the second constructs an [RPCNode].
    [RPCNode.Copy] names the copy, and [addNode], the only caller of
    [create], takes it as an argument.

    Modelling conventions.
    - JavaScript strings are [string]s; every character the code inspects
      (the dot of [split], the safe set of [encodeURI]) is ASCII, so the
      byte view and the UTF-16 view agree on them.
    - [number] fields hold integers ([Z]); [NaN], the infinities,
      fractions, and the rounding of integers beyond 2^53 are left out.
      [Date.now()] is an explicit argument [now : Z] of every operation
      that reads the clock.
    - The objects the caller supplies as [RPCServer] are references of a
      type [H]; what their [handle] method does is given by a function on
      an outside [World], which the client cannot see.  Such a method
      returns normally, with a value of its declared type (an instance of
      [APIResponse], or [null]), and does not call back into the client.
      Every call of such a method, every call on the WebSocket, and every
      [console.error] is appended to an event log.
    - Exceptions.  Two calls of the client's code can raise: [send] of
      the WebSocket while the socket is still connecting ([readyState]
      0; once the socket has opened, and after [close], it returns), and
      [RPCNode.create] of the imported copy.  Nothing in the client
      catches either.  A method that can be left this way has an
      outcome of type [Js.Completion], which tells a return from an
      exception and carries the state reached; the function of the
      method's own name gives that state alone.
    - [JSON] and [BSON] are third-party codecs: a frame is represented by
      the document it carries, not by its characters or bytes, and the
      documents are those that fit the declared types of the envelope's
      fields (no BSON date, binary or the like). *)

From Stdlib Require Import ZArith Ascii String List.
From stdpp Require Import gmap strings list fin_maps.

#[local] Set Warnings "-register-all".
#[local] Open Scope string_scope.

(* ===================================================================== *)
(** ** JavaScript built-ins used by the client *)
(* ===================================================================== *)

Module Js.

(** Values of type [any] that can sit in [request] and in [params]. *)
Inductive Value : Type :=
| Undefined
| Null
| Bool (b : bool)
| Number (n : Z)
| Str (s : string)
| Array (items : list Value)
| Object (props : list (string * Value))   (* a plain object, own properties *)
| Map (entries : list (string * Value)).   (* an instance of Map *)

(** How a call ends: it returns, or it raises an exception; either way
    with the state it has reached. *)
Inductive Completion (S : Type) : Type :=
| Returned (s : S)
| Raised (s : S).
Arguments Returned {S} s.
Arguments Raised {S} s.

Definition state_of {S : Type} (c : Completion S) : S :=
  match c with
  | Returned s => s
  | Raised s => s
  end.

Definition raised {S : Type} (c : Completion S) : bool :=
  match c with
  | Returned _ => false
  | Raised _ => true
  end.

(** ToBoolean on a number: every number but zero is truthy. *)
Definition truthy (n : Z) : bool := negb (n =? 0)%Z.

(** [s.split(sep)] for a one-character separator: never the empty list. *)
Fixpoint split (sep : ascii) (s : string) : list string :=
  match s with
  | EmptyString => [EmptyString]
  | String c rest =>
      if Ascii.eqb c sep then EmptyString :: split sep rest
      else match split sep rest with
           | seg :: segs => String c seg :: segs
           | [] => [String c EmptyString]
           end
  end.

Definition dot : ascii := "."%char.

(** [encodeURI]: the characters of the unescaped set are kept, every
    other byte is written as a percent sign and two hexadecimal digits. *)
Definition uri_unescaped (c : ascii) : bool :=
  let n := nat_of_ascii c in
  ((65 <=? n)%nat && (n <=? 90)%nat) || ((97 <=? n)%nat && (n <=? 122)%nat)
  || ((48 <=? n)%nat && (n <=? 57)%nat)
  || existsb (Ascii.eqb c)
       [";"; "/"; "?"; ":"; "@"; "&"; "="; "+"; "$"; ","; "-"; "_"; ".";
        "!"; "~"; "*"; "'"; "("; ")"; "#"]%char.

Definition hex_digit (n : nat) : ascii :=
  if (n <? 10)%nat then ascii_of_nat (48 + n) else ascii_of_nat (55 + n).

Fixpoint encodeURI (s : string) : string :=
  match s with
  | EmptyString => EmptyString
  | String c rest =>
      if uri_unescaped c then String c (encodeURI rest)
      else
        let n := nat_of_ascii c in
        String "%"%char
          (String (hex_digit (n / 16))
             (String (hex_digit (n mod 16)) (encodeURI rest)))
  end.


Section ValueInduction.
Variable P : Value -> Prop.
Hypothesis Hundefined : P Undefined.
Hypothesis Hnull : P Null.
Hypothesis Hbool : forall b, P (Bool b).
Hypothesis Hnumber : forall n, P (Number n).
Hypothesis Hstr : forall s, P (Str s).
Hypothesis Harray : forall items, Forall P items -> P (Array items).
Hypothesis Hobject : forall props, Forall (fun p => P (snd p)) props -> P (Object props).
Hypothesis Hmap : forall entries, Forall (fun p => P (snd p)) entries -> P (Map entries).

End ValueInduction.

(** [obj[k] = v] on the own properties of a plain object: an existing
    property keeps its place, a new one goes last. *)
Fixpoint set_prop (k : string) (v : Value) (props : list (string * Value))
  : list (string * Value) :=
  match props with
  | [] => [(k, v)]
  | (k', v') :: rest =>
      if String.eqb k k' then (k', v) :: rest
      else (k', v') :: set_prop k v rest
  end.

End Js.

(* ===================================================================== *)
(** ** The two wire forms *)
(* ===================================================================== *)

Module Wire.

(** A document, as JSON text or BSON bytes spell it. *)
Inductive Doc : Type :=
| DNull
| DBool (b : bool)
| DNum (n : Z)
| DStr (s : string)
| DArr (items : list Doc)
| DObj (members : list (string * Doc)).

(** [JSON.stringify] on one value (SerializeJSONProperty): [None] is
    the result [undefined], for which an object drops the property and
    an array writes [null].  A [Map] has no enumerable own property, so
    it is written as the empty object whatever it holds. *)
Fixpoint json_of (v : Js.Value) : option Doc :=
  match v with
  | Js.Undefined => None
  | Js.Null => Some DNull
  | Js.Bool b => Some (DBool b)
  | Js.Number n => Some (DNum n)
  | Js.Str s => Some (DStr s)
  | Js.Array items =>
      Some (DArr (List.map (fun x => match json_of x with
                                     | Some d => d
                                     | None => DNull
                                     end) items))
  | Js.Object props =>
      Some (DObj ((fix members (ps : list (string * Js.Value)) :=
                     match ps with
                     | [] => []
                     | (k, x) :: rest =>
                         match json_of x with
                         | Some d => (k, d) :: members rest
                         | None => members rest
                         end
                     end) props))
  | Js.Map _ => Some (DObj [])
  end.

(** [BSON.serialize] on one value, with the library's default options:
    as for JSON, [None] is the result for [undefined], which an object
    or a [Map] leaves out and an array writes as null.  A [Map] is
    written as a document of its entries. *)
Fixpoint bson_of (v : Js.Value) : option Doc :=
  match v with
  | Js.Undefined => None
  | Js.Null => Some DNull
  | Js.Bool b => Some (DBool b)
  | Js.Number n => Some (DNum n)
  | Js.Str s => Some (DStr s)
  | Js.Array items =>
      Some (DArr (List.map (fun x => match bson_of x with
                                     | Some d => d
                                     | None => DNull
                                     end) items))
  | Js.Object props =>
      Some (DObj ((fix members (ps : list (string * Js.Value)) :=
                     match ps with
                     | [] => []
                     | (k, x) :: rest =>
                         match bson_of x with
                         | Some d => (k, d) :: members rest
                         | None => members rest
                         end
                     end) props))
  | Js.Map entries =>
      Some (DObj ((fix members (ps : list (string * Js.Value)) :=
                     match ps with
                     | [] => []
                     | (k, x) :: rest =>
                         match bson_of x with
                         | Some d => (k, d) :: members rest
                         | None => members rest
                         end
                     end) entries))
  end.

(** [JSON.parse] and [BSON.deserialize] on one document: arrays become
    arrays and objects become plain objects (never a [Map]); of two
    members with one name the later value wins.  The properties are
    listed in the order of the members; JavaScript lists names that are
    array indices first, in ascending order, so the list is the
    object's own order when no member name is an array index or when
    such names come first and ascending. *)
Fixpoint value_of (d : Doc) : Js.Value :=
  match d with
  | DNull => Js.Null
  | DBool b => Js.Bool b
  | DNum n => Js.Number n
  | DStr s => Js.Str s
  | DArr items => Js.Array (List.map value_of items)
  | DObj members =>
      Js.Object ((fix props (ms : list (string * Doc))
                      (acc : list (string * Js.Value)) :=
                    match ms with
                    | [] => acc
                    | (k, x) :: rest => props rest (Js.set_prop k (value_of x) acc)
                    end) members [])
  end.

(** What a decoder hands to [Object.assign]: the fields of the envelope
    schema that the frame carries, each at its declared type
    ([UUID], [message], [key]: string; [status]: integer; [request],
    [params]: any document).  A field the frame omits is [None]. *)
Record Data : Type := mkData {
  dUUID : option string;
  dstatus : option Z;
  dmessage : option string;
  dkey : option string;
  drequest : option Doc;
  dparams : option Doc
}.

(** A frame on the connection, by the representation of the event. *)
Inductive Frame : Type :=
| Text (data : Data)      (* typeof event.data === 'string' *)
| Binary (data : Data)    (* event.data instanceof ArrayBuffer *)
| Other.                  (* anything else the transport delivers *)

End Wire.

(* ===================================================================== *)
(** ** [APIResponse]: the envelope *)
(* ===================================================================== *)

Module APIResponse.

Record t : Type := mk {
  UUID : string;
  status : Z;
  message : string;
  key : string;
  request : Js.Value;
  params : Js.Value
}.

(** A default parameter: the default stands in for an argument that is
    left out and for one that is [undefined]. *)
Definition or_default (d : Js.Value) (argument : option Js.Value) : Js.Value :=
  match argument with
  | None => d
  | Some Js.Undefined => d
  | Some v => v
  end.

(** [new APIResponse(...)]: an argument left out takes its default. *)
Definition new (UUID : option string) (status : option Z)
    (message key : option string) (request params : option Js.Value) : t :=
  {| UUID := default EmptyString UUID;
     status := default 200%Z status;
     message := default EmptyString message;
     key := default EmptyString key;
     request := or_default (Js.Str EmptyString) request;
     params := or_default (Js.Map []) params |}.

(** [JSON.stringify(this)]: the six own properties in declaration
    order, a property whose value is [undefined] left out. *)
Definition toJsonStr (this : t) : Wire.Data :=
  {| Wire.dUUID := Some (UUID this);
     Wire.dstatus := Some (status this);
     Wire.dmessage := Some (message this);
     Wire.dkey := Some (key this);
     Wire.drequest := Wire.json_of (request this);
     Wire.dparams := Wire.json_of (params this) |}.

(** [BSON.serialize(this)]: as above, with the other encoding of the
    values. *)
Definition toBsonBin (this : t) : Wire.Data :=
  {| Wire.dUUID := Some (UUID this);
     Wire.dstatus := Some (status this);
     Wire.dmessage := Some (message this);
     Wire.dkey := Some (key this);
     Wire.drequest := Wire.bson_of (request this);
     Wire.dparams := Wire.bson_of (params this) |}.

(** [Object.assign(target, data)] on the six fields: a property present
    in [data] overwrites the target's, the others stay. *)
Definition assign (target : t) (data : Wire.Data) : t :=
  {| UUID := default (UUID target) (Wire.dUUID data);
     status := default (status target) (Wire.dstatus data);
     message := default (message target) (Wire.dmessage data);
     key := default (key target) (Wire.dkey data);
     request := default (request target) (Wire.value_of <$> Wire.drequest data);
     params := default (params target) (Wire.value_of <$> Wire.dparams data) |}.

End APIResponse.

(** The interface [RPCServer]: one method, [handle(request)], which
    returns a response or [null].  [H] is the type of references to the
    objects that implement it, [World] whatever state their code keeps. *)
Class RPCServer (H World : Type) : Type :=
  handle_method : H -> APIResponse.t -> World -> option APIResponse.t * World.

(* ===================================================================== *)
(** ** [RPCNode]: a node of the routing trie *)
(* ===================================================================== *)

Module RPCNode.

(** What a node's [rpcServer] may refer to: the inline object the
    constructor puts on the root, or an object of the caller. *)
Inductive ServerRef (H : Type) : Type :=
| Adapter
| User (h : H).
Arguments Adapter {H}.
Arguments User {H} h.

(** The two copies of the class in the repository: the one the client
    of [part_001] imports ([src/src/type.d.ts]) and the one of the
    one-file version ([part_000]). *)
Inductive Copy : Type :=
| Imported
| OneFile.

Inductive t (H : Type) : Type := mk {
  _name : string;
  children : gmap string (t H);
  _rpcServer : option (ServerRef H)
}.
Arguments mk {H} _ _ _.
Arguments _name {H} _.
Arguments children {H} _.
Arguments _rpcServer {H} _.

Section Methods.
Context {H : Type}.

(** [new RPCNode(name, rpcServer)], both arguments optional. *)
Definition new (name : option string) (rpcServer : option (ServerRef H)) : t H :=
  mk (default EmptyString name) ∅ rpcServer.

Definition name (this : t H) : string := _name this.
Definition getChildren (this : t H) : gmap string (t H) := children this.
Definition rpcServer (this : t H) : option (ServerRef H) := _rpcServer this.

Definition set_name (value : string) (this : t H) : t H :=
  mk value (children this) (_rpcServer this).
Definition set_rpcServer (value : option (ServerRef H)) (this : t H) : t H :=
  mk (_name this) (children this) value.
Definition set_children (value : gmap string (t H)) (this : t H) : t H :=
  mk (_name this) value (_rpcServer this).

Definition clear (this : t H) : t H := set_children ∅ this.

(** [RPCNode.create(key)].  The repository has the class twice, and the
    two bodies differ.  In [src/type.d.ts] (lines 131-133), the module
    the client of [part_001] imports, the body is
    [new RPCRouterNode(key, null)], and no class of that name is
    declared anywhere: the call raises a ReferenceError and no node is
    made.  In the one-file copy of the library ([part_000], lines
    368-370) the body is [new RPCNode(key, null)].  [Copy] says which
    of the two is meant; [None] is the raised exception. *)
Definition create (copy : Copy) (key : string) : option (t H) :=
  match copy with
  | Imported => None
  | OneFile => Some (new (Some key) None)
  end.
End Methods.

End RPCNode.

(* ===================================================================== *)
(** ** [TimedCache]: the registry of pending callbacks *)
(* ===================================================================== *)

Module TimedCache.

Record CacheItem (V : Type) : Type := mkItem { value : V; expiry : Z }.
Arguments mkItem {V} _ _.
Arguments value {V} _.
Arguments expiry {V} _.

(** The store is a JavaScript [Map]: entries in insertion order, one per
    key.  [timer] says whether the interval set by the constructor is
    still armed. *)
Record t (K V : Type) : Type := mk {
  ttl : Z;
  interval : Z;
  cache : list (K * CacheItem V);
  timer : bool
}.
Arguments mk {K V} _ _ _ _.
Arguments ttl {K V} _.
Arguments interval {K V} _.
Arguments cache {K V} _.
Arguments timer {K V} _.

Section Methods.
Context {K V : Type} `{EqDecision K}.

(** [Map.prototype.get], [set] and [delete]. *)
Fixpoint map_get (key : K) (m : list (K * CacheItem V)) : option (CacheItem V) :=
  match m with
  | [] => None
  | (k, item) :: rest => if decide (k = key) then Some item else map_get key rest
  end.

Fixpoint map_set (key : K) (item : CacheItem V) (m : list (K * CacheItem V))
  : list (K * CacheItem V) :=
  match m with
  | [] => [(key, item)]
  | (k, old) :: rest =>
      if decide (k = key) then (k, item) :: rest
      else (k, old) :: map_set key item rest
  end.

Fixpoint map_delete (key : K) (m : list (K * CacheItem V)) : list (K * CacheItem V) :=
  match m with
  | [] => []
  | (k, item) :: rest =>
      if decide (k = key) then map_delete key rest
      else (k, item) :: map_delete key rest
  end.

Definition with_cache (m : list (K * CacheItem V)) (this : t K V) : t K V :=
  mk (ttl this) (interval this) m (timer this).

(** [new TimedCache(ttl, onClear, interval)]; the callback is passed
    to [clearExpired] below, where it is used. *)
Definition new (ttl : Z) (interval : option Z) : t K V :=
  mk ttl (default 60000%Z interval) [] true.

Definition set (now : Z) (key : K) (value : V) (this : t K V) : t K V :=
  let expiry := (now + ttl this)%Z in
  with_cache (map_set key (mkItem value expiry) (cache this)) this.

Definition get (now : Z) (key : K) (this : t K V) : option V * t K V :=
  match map_get key (cache this) with
  | Some item =>
      if (now <? expiry item)%Z then (Some (value item), this)
      else (None, with_cache (map_delete key (cache this)) this)
  | None => (None, with_cache (map_delete key (cache this)) this)
  end.

Definition remove (key : K) (this : t K V) : t K V :=
  with_cache (map_delete key (cache this)) this.

Definition clear (this : t K V) : t K V :=
  mk (ttl this) (interval this) [] false.

(** [clearExpired]: the cache lives inside a larger state [S] on which
    the callback [onClear] runs; [getc] and [setc] reach the cache in
    it.  One turn of the loop, for the entry [(key, item)]: the callback
    first, then the deletion; an exception raised by the callback leaves
    the method there, before the deletion. *)
Definition sweep_entry {S : Type} (getc : S -> t K V) (setc : t K V -> S -> S)
    (onClear : K -> V -> S -> Js.Completion S) (now : Z) (s : S)
    (entry : K * CacheItem V) : Js.Completion S :=
  let (key, item) := entry in
  if (expiry item <=? now)%Z then
    match onClear key (value item) s with
    | Js.Returned s1 =>
        Js.Returned (setc (with_cache (map_delete key (cache (getc s1))) (getc s1)) s1)
    | Js.Raised s1 => Js.Raised s1
    end
  else Js.Returned s.

(** The loop over the entries, in insertion order, up to the first turn
    that raises. *)
Fixpoint sweep_loop {S : Type} (getc : S -> t K V) (setc : t K V -> S -> S)
    (onClear : K -> V -> S -> Js.Completion S) (now : Z)
    (todo : list (K * CacheItem V)) (s : S) : Js.Completion S :=
  match todo with
  | [] => Js.Returned s
  | entry :: rest =>
      match sweep_entry getc setc onClear now s entry with
      | Js.Returned s1 => sweep_loop getc setc onClear now rest s1
      | Js.Raised s1 => Js.Raised s1
      end
  end.

(** [clearExpired()], over [this.cache.entries()]. *)
Definition clearExpired {S : Type} (getc : S -> t K V) (setc : t K V -> S -> S)
    (onClear : K -> V -> S -> Js.Completion S) (now : Z) (s : S) : Js.Completion S :=
  sweep_loop getc setc onClear now (cache (getc s)) s.
End Methods.

End TimedCache.

(* ===================================================================== *)
(** ** The transport: what the client uses of a WebSocket *)
(* ===================================================================== *)

Module WebSocket.

Record t : Type := mk { url : string; binaryType : string; readyState : Z }.

(** The four ready-state constants; each is also a property of every
    instance, with the same value whatever the instance's state. *)
Definition CONNECTING (ws : t) : Z := 0.
Definition OPEN (ws : t) : Z := 1.
Definition CLOSING (ws : t) : Z := 2.
Definition CLOSED (ws : t) : Z := 3.

Definition new (address : string) : t := mk address "nodebuffer" 0.

Definition set_binaryType (value : string) (ws : t) : t :=
  mk (url ws) value (readyState ws).

(** The transport's own transitions: the handshake completes, and
    [close()] starts the closing handshake unless one is under way or
    done. *)
Definition opened (ws : t) : t := mk (url ws) (binaryType ws) 1.
Definition close (ws : t) : t :=
  mk (url ws) (binaryType ws) (if (readyState ws <? 2)%Z then 2%Z else readyState ws).

Definition is_open (ws : t) : bool := (readyState ws =? 1)%Z.

(** [send(data)] of the transport, called without a callback: while the
    socket is still connecting the call raises an error ("WebSocket is
    not open: readyState 0 (CONNECTING)"); on an open socket the data
    goes out; on a closing or closed socket the data is dropped and
    nothing is raised. *)
Definition send_throws (ws : t) : bool := (readyState ws =? 0)%Z.

End WebSocket.

(* ===================================================================== *)
(** ** [simple_rpc_client] *)
(* ===================================================================== *)

Module simple_rpc_client.
Section Client.
Context {H World : Type} `{RPCServer H World}.

Record t : Type := mk {
  websocket_client : WebSocket.t;
  status : bool;
  root : RPCNode.t H;
  server_cache : TimedCache.t string H;
  bin_first : bool
}.

(** What the client does to the outside, in order. *)
Inductive Event : Type :=
| WsSend (data : Wire.Frame)                    (* websocket_client.send(data) *)
| WsClose                                       (* websocket_client.close() *)
| Invoke (server : H) (request : APIResponse.t) (* server.handle(request) *)
| ConsoleError (msg : string).                  (* console.error(msg) *)

(** The client, the state of the callers' code, and the events so far. *)
Record State : Type := mkState { this : t; world : World; log : list Event }.

Definition emit (e : Event) (s : State) : State :=
  mkState (this s) (world s) (log s ++ [e]).

Definition set_root (r : RPCNode.t H) (s : State) : State :=
  let c := this s in
  mkState (mk (websocket_client c) (status c) r (server_cache c) (bin_first c))
    (world s) (log s).

Definition set_server_cache (tc : TimedCache.t string H) (s : State) : State :=
  let c := this s in
  mkState (mk (websocket_client c) (status c) (root c) tc (bin_first c))
    (world s) (log s).

Definition set_websocket (ws : WebSocket.t) (s : State) : State :=
  let c := this s in
  mkState (mk ws (status c) (root c) (server_cache c) (bin_first c))
    (world s) (log s).

Definition set_status (b : bool) (s : State) : State :=
  let c := this s in
  mkState (mk (websocket_client c) b (root c) (server_cache c) (bin_first c))
    (world s) (log s).

(** [send(message, useBin = this.bin_first)]: the state in which the
    call ends, be it by return or by an exception of the transport. *)
Definition send (message : APIResponse.t) (useBin : option bool) (s : State) : State :=
  let useBin := default (bin_first (this s)) useBin in
  if Js.truthy (WebSocket.OPEN (websocket_client (this s))) then
    if useBin then emit (WsSend (Wire.Binary (APIResponse.toBsonBin message))) s
    else emit (WsSend (Wire.Text (APIResponse.toJsonStr message))) s
  else s.

(** Whether a call of [send] in state [s] ends by an exception: it does
    when the transport's [send] is reached and raises.  Nothing in the
    client catches it. *)
Definition send_raises (s : State) : bool :=
  Js.truthy (WebSocket.OPEN (websocket_client (this s)))
  && WebSocket.send_throws (websocket_client (this s)).

(** [send] with the way it ends.  In [root_handle], [handle] and
    [sendAndCallBack] below, the call of [send] is the last thing done,
    so the state they give is the one they end in whether [send]
    returns or raises; [clearExpired] goes on after its callback, and
    there the two ways differ. *)
Definition send_outcome (message : APIResponse.t) (useBin : option bool) (s : State)
  : Js.Completion State :=
  if send_raises s then Js.Raised (send message useBin s)
  else Js.Returned (send message useBin s).

(** A call of [handle] on an object of the caller. *)
Definition call_user (server : H) (request : APIResponse.t) (s : State)
  : option APIResponse.t * State :=
  let (re, w) := handle_method server request (world s) in
  (re, mkState (this s) w (log s ++ [Invoke server request])).

(** The callback the constructor gives to the cache. *)
Definition onClear (key : string) (value : H) (s : State) : Js.Completion State :=
  let request :=
    APIResponse.new (Some key) (Some 408%Z) (Some "Request timeout") None None None in
  let (re, s1) := call_user value request s in
  match re with
  | Some re => send_outcome re None s1
  | None => Js.Returned s1
  end.

(** The object the constructor puts on the root node. *)
Definition root_handle (request : APIResponse.t) (now : Z) (s : State)
  : option APIResponse.t * State :=
  let (server, tc) :=
    TimedCache.get now (APIResponse.UUID request) (server_cache (this s)) in
  let s1 := set_server_cache tc s in
  match server with
  | None => (None, s1)
  | Some server =>
      let s2 := set_server_cache
                  (TimedCache.remove (APIResponse.UUID request) (server_cache (this s1))) s1 in
      let (re, s3) := call_user server request s2 in
      match re with
      | Some re => (None, send re None s3)
      | None => (None, s3)
      end
  end.

(** [server.handle(request)] for whatever a node refers to. *)
Definition call (server : RPCNode.ServerRef H) (request : APIResponse.t)
    (now : Z) (s : State) : option APIResponse.t * State :=
  match server with
  | RPCNode.Adapter => root_handle request now s
  | RPCNode.User h => call_user h request s
  end.

(** The address the constructor connects to. *)
Definition address (ssl : bool) (url token : string) : string :=
  Js.encodeURI
    ((if ssl then "ws" else "wss") +:+ "://" +:+ url
     +:+ (if (String.length token =? 0)%nat then "?token=" +:+ token else EmptyString)).

Definition constructor (ssl : option bool) (url : string) (token : option string)
    (bin_first : option bool) (w : World) : State :=
  let ssl := default false ssl in
  let token := default EmptyString token in
  let bin_first := default false bin_first in
  let cache := TimedCache.new 120000%Z (Some 60000%Z) in
  let ws := WebSocket.set_binaryType "arraybuffer"
              (WebSocket.new (address ssl url token)) in
  let root := RPCNode.set_rpcServer (Some RPCNode.Adapter) (RPCNode.new None None) in
  mkState (mk ws false root cache bin_first) w [].

(** The listeners for [open] and [error]. *)
Definition on_open (s : State) : State :=
  set_status true (set_websocket (WebSocket.opened (websocket_client (this s))) s).

Definition on_error (err : string) (s : State) : State := emit (ConsoleError err) s.

Definition close (s : State) : State :=
  emit WsClose (set_websocket (WebSocket.close (websocket_client (this s))) s).

Definition getStatus (s : State) : bool := status (this s).

Definition handleStr (message : Wire.Data) : APIResponse.t :=
  APIResponse.assign (APIResponse.new None None None None None None) message.

Definition handleBin (message : Wire.Data) : APIResponse.t :=
  APIResponse.assign (APIResponse.new None None None None None None) message.

(** The loop of [handle]: follow [keys] from [node], [None] at the
    first segment that has no child. *)
Fixpoint walk (keys : list string) (node : RPCNode.t H) : option (RPCNode.t H) :=
  match keys with
  | [] => Some node
  | key :: rest =>
      match RPCNode.getChildren node !! key with
      | None => None
      | Some child => walk rest child
      end
  end.

Definition handle (data : APIResponse.t) (now : Z) (s : State) : State :=
  let key := APIResponse.key data in
  if String.eqb key EmptyString then
    match RPCNode.rpcServer (root (this s)) with
    | Some server => snd (call server data now s)
    | None => s
    end
  else
    match walk (Js.split Js.dot key) (root (this s)) with
    | None => emit (ConsoleError ("SimpleRPC: No such node " +:+ APIResponse.key data)) s
    | Some node =>
        match RPCNode.rpcServer node with
        | Some server =>
            let (re, s1) := call server data now s in
            match re with
            | Some re => send re None s1
            | None => s1
            end
        | None => s
        end
    end.

Definition onmessage (event : Wire.Frame) (now : Z) (s : State) : State :=
  let data :=
    match event with
    | Wire.Binary buffer => Some (handleBin buffer)
    | Wire.Text text => Some (handleStr text)
    | Wire.Other => None
    end in
  match data with
  | Some data => handle data now s
  | None => emit (ConsoleError "SimpleRPC: Data parsing failed") s
  end.

(** The loop of [addNode] from [node], with the copy of [RPCNode] in use:
    go down, making the child that is missing, and bind [server] to the
    node reached last.  When [RPCNode.create] raises, the method ends
    there, with the nodes as the loop has left them. *)
Fixpoint add_path (copy : RPCNode.Copy) (keys : list string) (server : H)
    (node : RPCNode.t H) : Js.Completion (RPCNode.t H) :=
  match keys with
  | [] => Js.Returned (RPCNode.set_rpcServer (Some (RPCNode.User server)) node)
  | key :: rest =>
      let child := match RPCNode.getChildren node !! key with
                   | Some child => Some child
                   | None => RPCNode.create copy key
                   end in
      match child with
      | None => Js.Raised node
      | Some child =>
          match add_path copy rest server child with
          | Js.Returned child' =>
              Js.Returned
                (RPCNode.set_children (<[key := child']> (RPCNode.getChildren node)) node)
          | Js.Raised child' =>
              Js.Raised
                (RPCNode.set_children (<[key := child']> (RPCNode.getChildren node)) node)
          end
      end
  end.

(** [addNode(key, server)] with the way it ends. *)
Definition addNode_outcome (copy : RPCNode.Copy) (key : option string) (server : option H)
    (s : State) : Js.Completion State :=
  let key := default EmptyString key in
  if String.eqb key EmptyString
  then Js.Returned (emit (ConsoleError "SimpleRPC: key cannot be empty") s)
  else
    match server with
    | None => Js.Returned (emit (ConsoleError "SimpleRPC: server cannot be empty") s)
    | Some server =>
        match add_path copy (Js.split Js.dot key) server (root (this s)) with
        | Js.Returned r => Js.Returned (set_root r s)
        | Js.Raised r => Js.Raised (set_root r s)
        end
    end.

(** The state in which [addNode] ends. *)
Definition addNode (copy : RPCNode.Copy) (key : option string) (server : option H)
    (s : State) : State :=
  Js.state_of (addNode_outcome copy key server s).

(** What the loop of [addNode] builds when it makes the nodes it finds
    missing, as with the one-file copy; the lemmas on [add_path] are
    stated with it. *)
Fixpoint bind_path (keys : list string) (server : H) (node : RPCNode.t H) : RPCNode.t H :=
  match keys with
  | [] => RPCNode.set_rpcServer (Some (RPCNode.User server)) node
  | key :: rest =>
      let child := match RPCNode.getChildren node !! key with
                   | Some child => child
                   | None => RPCNode.new (Some key) None
                   end in
      RPCNode.set_children (<[key := bind_path rest server child]> (RPCNode.getChildren node)) node
  end.

(** The loop of [removeNode] from [node]: [None] when a segment is
    missing (the method returns), else the node with the child named by
    the last segment deleted from the node reached just before it. *)
Fixpoint unlink_path (keys : list string) (node : RPCNode.t H) : option (RPCNode.t H) :=
  match keys with
  | [] => Some (RPCNode.set_children (delete EmptyString (RPCNode.getChildren node)) node)
  | key :: rest =>
      match RPCNode.getChildren node !! key with
      | None => None
      | Some child =>
          match rest with
          | [] => Some (RPCNode.set_children (delete key (RPCNode.getChildren node)) node)
          | _ :: _ =>
              match unlink_path rest child with
              | None => None
              | Some child' =>
                  Some (RPCNode.set_children (<[key := child']> (RPCNode.getChildren node)) node)
              end
          end
      end
  end.

Definition removeNode (key : option string) (s : State) : State :=
  let key := default EmptyString key in
  if String.eqb key EmptyString then emit (ConsoleError "SimpleRPC: key cannot be empty") s
  else
    match unlink_path (Js.split Js.dot key) (root (this s)) with
    | None => s
    | Some r => set_root r s
    end.

Definition addSendCallBack (uuid : string) (server : H) (now : Z) (s : State) : State :=
  set_server_cache (TimedCache.set now uuid server (server_cache (this s))) s.

Definition sendAndCallBack (message : APIResponse.t) (useBin : option bool) (server : H)
    (now : Z) (s : State) : State :=
  send message useBin (addSendCallBack (APIResponse.UUID message) server now s).

(** The interval of the cache fires: [clearExpired] with the callback of
    the constructor.  [sweep_turn] is one turn of its loop, [sweep_rest]
    the loop over the entries still to visit. *)
Definition sweep_turn (now : Z) (s : State) (entry : string * TimedCache.CacheItem H)
  : Js.Completion State :=
  TimedCache.sweep_entry (fun s => server_cache (this s)) set_server_cache onClear
    now s entry.

Definition sweep_rest (now : Z) (todo : list (string * TimedCache.CacheItem H))
    (s : State) : Js.Completion State :=
  TimedCache.sweep_loop (fun s => server_cache (this s)) set_server_cache onClear
    now todo s.

Definition sweep_outcome (now : Z) (s : State) : Js.Completion State :=
  TimedCache.clearExpired (fun s => server_cache (this s)) set_server_cache onClear now s.

(** The state in which the sweep ends. *)
Definition sweep (now : Z) (s : State) : State := Js.state_of (sweep_outcome now s).

(** The handler bound at the end of [keys] below [node], if the path
    exists and a handler is bound there. *)
Definition handler_at (keys : list string) (node : RPCNode.t H)
  : option (RPCNode.ServerRef H) :=
  match walk keys node with
  | Some n => RPCNode.rpcServer n
  | None => None
  end.

(** What [handle] resolves a route key to: the object whose [handle]
    method a dispatch of this key calls, if any. *)
Definition lookup (key : string) (s : State) : option (RPCNode.ServerRef H) :=
  if String.eqb key EmptyString then RPCNode.rpcServer (root (this s))
  else handler_at (Js.split Js.dot key) (root (this s)).

(** The frame [send] hands to the transport. *)
Definition encode (message : APIResponse.t) (useBin : bool) : Wire.Frame :=
  if useBin then Wire.Binary (APIResponse.toBsonBin message)
  else Wire.Text (APIResponse.toJsonStr message).

(** What [send(re)] adds to the log for the result [re] of a handler. *)
Definition forwarded (re : option APIResponse.t) (s : State) : list Event :=
  match re with
  | Some re => [WsSend (encode re (bin_first (this s)))]
  | None => []
  end.

(** The request the sweep makes up for the key of an expired entry. *)
Definition timeout_request (key : string) : APIResponse.t :=
  APIResponse.mk key 408%Z "Request timeout" EmptyString (Js.Str EmptyString) (Js.Map []).

(** How many frames a stretch of the log hands to the transport. *)
Definition is_send (e : Event) : bool :=
  match e with
  | WsSend _ => true
  | _ => false
  end.

Definition sends (l : list Event) : nat := length (List.filter is_send l).

(** The entries of the registry, oldest first. *)
Definition entries (s : State) : list (string * TimedCache.CacheItem H) :=
  TimedCache.cache (server_cache (this s)).

(** A call of [server.handle(data)] followed by [send] of its result
    when that is not [null], as one step on the state. *)
Definition answered (server : H) (data : APIResponse.t) (s : State) : State :=
  mkState (this s) (snd (handle_method server data (world s)))
    (log s ++ Invoke server data
            :: forwarded (fst (handle_method server data (world s))) s).

(** Whether the callback of the sweep for the entry of [key] ends by an
    exception in state [s]: it does when the handler returns an
    envelope and the [send] of it raises. *)
Definition timeout_raises (server : H) (key : string) (s : State) : bool :=
  match fst (handle_method server (timeout_request key) (world s)) with
  | Some _ => send_raises s
  | None => false
  end.

(** What a turn of the sweep does to the state when its callback
    returns: nothing for an entry whose expiry is ahead; for the others
    the handler's call and the forwarding, then the deletion. *)
Definition settle (now : Z) (s : State) (entry : string * TimedCache.CacheItem H)
  : State :=
  if (TimedCache.expiry (snd entry) <=? now)%Z then
    let s1 := answered (TimedCache.value (snd entry)) (timeout_request (fst entry)) s in
    set_server_cache (TimedCache.remove (fst entry) (server_cache (this s1))) s1
  else s.

(** The root still carries the object the constructor put there. *)
Definition adapter_installed (s : State) : Prop :=
  RPCNode.rpcServer (root (this s)) = Some RPCNode.Adapter.

(** The operations of the class and the events of its environment, each
    with the state in which it ends, by return or by exception;
    [addNode] with either copy of the library. *)
Inductive step : State -> State -> Prop :=
| step_open s : step s (on_open s)
| step_error err s : step s (on_error err s)
| step_message event now s : step s (onmessage event now s)
| step_sweep now s : step s (sweep now s)
| step_close s : step s (close s)
| step_addNode copy key server s : step s (addNode copy key server s)
| step_removeNode key s : step s (removeNode key s)
| step_addSendCallBack uuid server now s : step s (addSendCallBack uuid server now s)
| step_send message useBin s : step s (send message useBin s)
| step_sendAndCallBack message useBin server now s :
    step s (sendAndCallBack message useBin server now s).

Inductive reachable : State -> Prop :=
| reachable_new ssl url token bf w : reachable (constructor ssl url token bf w)
| reachable_step s s' : reachable s -> step s s' -> reachable s'.

Definition well_formed (s : State) : Prop :=
  adapter_installed s /\ NoDup (List.map fst (entries s)).

End Client.
End simple_rpc_client.

(* ===================================================================== *)
(** ** A sample of callers' code *)
(* ===================================================================== *)

(** Handlers are numbered; the world counts the calls made so far; a
    handler with an even number answers with the request it was given,
    one with an odd number returns [null]. *)
#[export] Instance sample_server : RPCServer nat nat :=
  fun h request calls => (if Nat.even h then Some request else None, S calls).

Module Sample.
Import simple_rpc_client.

(** A client fresh from the constructor, with no call made yet. *)
Definition fresh : State (H:=nat) (World:=nat) :=
  constructor None "example.com/rpc" None None 0%nat.

Definition reply : APIResponse.t :=
  APIResponse.new (Some "X") None None None None None.

Definition question : APIResponse.t :=
  APIResponse.new (Some "X") None None (Some "svc.ping") None None.

(** Two routes, [x] and [a.b.c]. *)
Definition routed : State (H:=nat) (World:=nat) :=
  addNode RPCNode.OneFile (Some "a.b.c") (Some 2%nat)
    (addNode RPCNode.OneFile (Some "x") (Some 4%nat) fresh).

(** Two callbacks waiting, set at times 1000 and 5000. *)
Definition pending : State (H:=nat) (World:=nat) :=
  addSendCallBack "late" 2%nat 5000%Z (addSendCallBack "early" 3%nat 1000%Z fresh).

End Sample.

(* ===================================================================== *)
(** ** Vocabulary for the properties of whole runs *)
(* ===================================================================== *)

Module Js_join.

(** [segments.join(sep)] for a one-character separator. *)
Fixpoint join (sep : ascii) (segments : list string) : string :=
  match segments with
  | [] => EmptyString
  | [seg] => seg
  | seg :: rest => seg +:+ String sep (join sep rest)
  end.

End Js_join.

Section Observations.
Import simple_rpc_client.
Context {H World : Type} `{RPCServer H World}.

(** The calls of [handle] on callers' objects in a stretch of the log,
    in order: which object, with which envelope. *)
Fixpoint invocations (l : list (Event (H:=H))) : list (H * APIResponse.t) :=
  match l with
  | [] => []
  | Invoke server request :: rest => (server, request) :: invocations rest
  | _ :: rest => invocations rest
  end.

(** The test of [clearExpired] on one entry, and its opposite, the test
    of [get]. *)
Definition expired (now : Z) (entry : string * TimedCache.CacheItem H) : bool :=
  (TimedCache.expiry (snd entry) <=? now)%Z.

Definition live (now : Z) (entry : string * TimedCache.CacheItem H) : bool :=
  (now <? TimedCache.expiry (snd entry))%Z.

(** The call the sweep makes for an entry. *)
Definition timeout_call (entry : string * TimedCache.CacheItem H) : H * APIResponse.t :=
  (TimedCache.value (snd entry), timeout_request (fst entry)).

(** No node below the root refers to the root's own object. *)
Definition routes_are_users (s : State (H:=H) (World:=World)) : Prop :=
  forall keys, keys <> [] -> handler_at keys (root (this s)) <> Some RPCNode.Adapter.

(** The settings the constructor fixes. *)
Definition settings_kept (s : State (H:=H) (World:=World)) : Prop :=
  TimedCache.ttl (server_cache (this s)) = 120000%Z
  /\ TimedCache.interval (server_cache (this s)) = 60000%Z
  /\ TimedCache.timer (server_cache (this s)) = true
  /\ WebSocket.binaryType (websocket_client (this s)) = "arraybuffer"
  /\ RPCNode.name (root (this s)) = EmptyString.

End Observations.

(** More small cases on the sample client. *)
Module Cases.
Import simple_rpc_client.

Definition early_reply : APIResponse.t :=
  APIResponse.new (Some "early") None None None None None.

Definition ping : APIResponse.t :=
  APIResponse.new (Some "u7") None None (Some "a.b.c") None None.

Definition wanderer : APIResponse.t :=
  APIResponse.new (Some "X") None None (Some "x") None None.

Definition node_c : RPCNode.t nat := RPCNode.mk "c" ∅ (Some (RPCNode.User 2%nat)).

Definition node_b : RPCNode.t nat := RPCNode.mk "b" {["c" := node_c]} None.

Definition opened : State (H:=nat) (World:=nat) := on_open Sample.fresh.

(** Two callbacks registered, at times 1000 and 5000, on a client whose
    transport is still connecting; the object of the first answers the
    envelope of the timeout. *)
Definition stuck : State (H:=nat) (World:=nat) :=
  addSendCallBack "second" 4%nat 5000%Z (addSendCallBack "first" 2%nat 1000%Z Sample.fresh).

(** The callbacks of [Sample.pending], registered once the transport
    has opened. *)
Definition waiting : State (H:=nat) (World:=nat) :=
  addSendCallBack "late" 2%nat 5000%Z (addSendCallBack "early" 3%nat 1000%Z opened).


End Cases.

(* ===================================================================== *)
(** * Properties *)
(* ===================================================================== *)

Import simple_rpc_client.
#[local] Open Scope list_scope.

(** ** The routing trie *)

Section Trie.
Context {H World : Type} `{RPCServer H World}.

Implicit Types (node child : RPCNode.t H) (keys : list string) (server : H).

Lemma walk_app keys1 keys2 node :
  walk (keys1 ++ keys2) node =
  match walk keys1 node with
  | Some n => walk keys2 n
  | None => None
  end.
Proof.
  revert node. induction keys1 as [|k keys1 IH]; intros node; simpl; [done|].
  destruct (RPCNode.getChildren node !! k); [apply IH | done].
Qed.

Lemma handler_at_create keys k :
  handler_at keys (RPCNode.new (H:=H) (Some k) None) = None.
Proof. destruct keys; [done|]. unfold handler_at. simpl. by rewrite lookup_empty. Qed.

Lemma bind_path_reaches keys server node :
  exists n, walk keys (bind_path keys server node) = Some n
            /\ RPCNode.rpcServer n = Some (RPCNode.User server).
Proof.
  revert node. induction keys as [|k keys IH]; intros node; simpl.
  - eexists; split; [reflexivity | done].
  - rewrite lookup_insert_eq. apply IH.
Qed.

Lemma bind_path_hit keys server node :
  handler_at keys (bind_path keys server node) = Some (RPCNode.User server).
Proof.
  unfold handler_at.
  destruct (bind_path_reaches keys server node) as (n & -> & Hn). exact Hn.
Qed.

Lemma bind_path_other keys keys' server node :
  keys' <> keys ->
  handler_at keys' (bind_path keys server node) = handler_at keys' node.
Proof.
  revert keys' node. induction keys as [|k keys IH]; intros keys' node Hne.
  - destruct keys' as [|k' keys']; [done|]. reflexivity.
  - destruct keys' as [|k' keys']; [reflexivity|].
    unfold handler_at. simpl.
    destruct (decide (k = k')) as [<-|Hk].
    + rewrite lookup_insert_eq.
      assert (keys' <> keys) as Hne' by congruence.
      specialize (IH keys'). unfold handler_at in IH. rewrite IH by done.
      destruct (RPCNode.getChildren node !! k); [done|].
      apply handler_at_create.
    + by rewrite lookup_insert_ne.
Qed.

Lemma bind_path_root k keys server node :
  RPCNode.rpcServer (bind_path (k :: keys) server node) = RPCNode.rpcServer node.
Proof. reflexivity. Qed.

(** The loop of [addNode] with the one-file copy never raises. *)
Lemma add_path_one_file keys server node :
  add_path RPCNode.OneFile keys server node = Js.Returned (bind_path keys server node).
Proof.
  revert node. induction keys as [|k keys IH]; intros node; [done|].
  cbn [add_path bind_path].
  destruct (RPCNode.getChildren node !! k) as [child|]; cbn [RPCNode.create];
    by rewrite IH.
Qed.

(** With either copy it returns when every node of the path is there. *)
Lemma add_path_found copy keys server node target :
  walk keys node = Some target ->
  add_path copy keys server node = Js.Returned (bind_path keys server node).
Proof.
  revert node. induction keys as [|k keys IH]; intros node Hw; [done|].
  cbn [add_path bind_path]. simpl in Hw.
  destruct (RPCNode.getChildren node !! k) as [child|]; [|done].
  by rewrite (IH child Hw).
Qed.

(** With the imported copy it raises at the first segment that has no
    node, and has then changed nothing. *)
Lemma add_path_imported_missing keys server node :
  walk keys node = None ->
  add_path RPCNode.Imported keys server node = Js.Raised node.
Proof.
  revert node. induction keys as [|k keys IH]; intros node Hw; [done|].
  cbn [add_path]. simpl in Hw.
  destruct (RPCNode.getChildren node !! k) as [child|] eqn:Hchild; [|done].
  rewrite (IH child Hw). f_equal.
  unfold RPCNode.set_children, RPCNode.getChildren in *.
  rewrite insert_id by done. by destruct node.
Qed.

Lemma split_nonempty sep s : Js.split sep s <> [].
Proof.
  destruct s as [|c s]; simpl; [done|].
  destruct (Ascii.eqb c sep); [done|]. by destruct (Js.split sep s).
Qed.

(** [removeNode]: a missing segment makes the loop return. *)
Lemma unlink_path_missing keys node :
  keys <> [] -> walk keys node = None -> unlink_path keys node = None.
Proof.
  revert node. induction keys as [|k keys IH]; intros node Hne Hw; [done|].
  simpl in *. destruct (RPCNode.getChildren node !! k) as [child|]; [|done].
  destruct keys as [|k2 keys]; [done|].
  rewrite IH; done.
Qed.

(** [removeNode] on a path that exists: the node reached just before the
    last segment loses that child, and nothing else changes. *)
Lemma unlink_path_found keys k node parent :
  walk keys node = Some parent ->
  is_Some (RPCNode.getChildren parent !! k) ->
  exists node',
    unlink_path (keys ++ [k]) node = Some node'
    /\ walk keys node' =
         Some (RPCNode.set_children (delete k (RPCNode.getChildren parent)) parent)
    /\ (forall rest, walk (keys ++ k :: rest) node' = None)
    /\ (forall keys', ~ (keys ++ [k])%list `prefix_of` keys' ->
                      handler_at keys' node' = handler_at keys' node).
Proof.
  revert node. induction keys as [|k1 keys IH]; intros node Hw [c Hc].
  - simpl in Hw. injection Hw as ->. simpl. rewrite Hc.
    eexists; split; [reflexivity|]. split; [reflexivity|]. split.
    + intros rest. simpl. by rewrite lookup_delete_eq.
    + intros keys' Hpre. destruct keys' as [|k' keys']; [reflexivity|].
      unfold handler_at. simpl.
      destruct (decide (k = k')) as [<-|Hk].
      * exfalso. apply Hpre. exists keys'. reflexivity.
      * by rewrite lookup_delete_ne.
  - simpl in Hw.
    destruct (RPCNode.getChildren node !! k1) as [child|] eqn:Hchild; [|done].
    destruct (IH child Hw (ex_intro _ c Hc)) as (child' & Hu & Hp & Hgone & Hother).
    simpl. rewrite Hchild.
    destruct (keys ++ [k])%list as [|k2 ks2] eqn:Hks; [by destruct keys|].
    rewrite Hu. eexists; split; [reflexivity|].
    simpl. rewrite lookup_insert_eq. split; [exact Hp|]. split; [exact Hgone|].
    intros keys' Hpre. destruct keys' as [|k' keys']; [reflexivity|].
    unfold handler_at. simpl.
    destruct (decide (k1 = k')) as [<-|Hk].
    + rewrite lookup_insert_eq, Hchild. apply Hother.
      intros [rest Hrest]. apply Hpre. exists rest. simpl. by rewrite Hrest.
    + by rewrite lookup_insert_ne.
Qed.

End Trie.

(** ** The state around the trie *)

Section Dispatch.
Context {H World : Type} `{RPCServer H World}.

Implicit Types (s : State (H:=H) (World:=World)) (data : APIResponse.t).

Lemma send_spec message useBin s :
  send message useBin s =
  emit (WsSend (encode message (default (bin_first (this s)) useBin))) s.
Proof. unfold send, encode. simpl. by destruct (default _ useBin). Qed.

Lemma set_root_id s : set_root (root (this s)) s = s.
Proof. by destruct s as [[] ? ?]. Qed.

Lemma set_server_cache_id s : set_server_cache (server_cache (this s)) s = s.
Proof. by destruct s as [[] ? ?]. Qed.

Lemma eqb_empty_false k : k <> EmptyString -> String.eqb k EmptyString = false.
Proof. intros. by apply String.eqb_neq. Qed.

(** A dispatch with a route key calls what [lookup] finds and forwards
    the result. *)
Lemma handle_routed data now s server :
  APIResponse.key data <> EmptyString ->
  lookup (APIResponse.key data) s = Some server ->
  handle data now s =
  let (re, s1) := call server data now s in
  match re with
  | Some re => send re None s1
  | None => s1
  end.
Proof.
  intros Hk. unfold lookup, handle, handler_at. rewrite eqb_empty_false by done.
  destruct (walk _ _) as [node|]; [|done]. by intros ->.
Qed.

Lemma addNode_one_file key server s :
  key <> EmptyString ->
  addNode_outcome RPCNode.OneFile (Some key) (Some server) s
  = Js.Returned (set_root (bind_path (Js.split Js.dot key) server (root (this s))) s).
Proof.
  intros Hk. unfold addNode_outcome. simpl. rewrite eqb_empty_false by done.
  by rewrite add_path_one_file.
Qed.

Lemma addNode_found copy key server s target :
  key <> EmptyString ->
  walk (Js.split Js.dot key) (root (this s)) = Some target ->
  addNode_outcome copy (Some key) (Some server) s
  = Js.Returned (set_root (bind_path (Js.split Js.dot key) server (root (this s))) s).
Proof.
  intros Hk Hw. unfold addNode_outcome. simpl. rewrite eqb_empty_false by done.
  by rewrite (add_path_found _ _ _ _ _ Hw).
Qed.

Lemma addNode_imported_missing key server s :
  key <> EmptyString ->
  walk (Js.split Js.dot key) (root (this s)) = None ->
  addNode_outcome RPCNode.Imported (Some key) (Some server) s = Js.Raised s.
Proof.
  intros Hk Hw. unfold addNode_outcome. simpl. rewrite eqb_empty_false by done.
  rewrite (add_path_imported_missing _ _ _ Hw). by rewrite set_root_id.
Qed.

(** The two ways [addNode] with a key and a handler can end. *)
Lemma addNode_cases copy key server s :
  key <> EmptyString ->
  (addNode_outcome copy (Some key) (Some server) s
   = Js.Returned (set_root (bind_path (Js.split Js.dot key) server (root (this s))) s)
   /\ (copy = RPCNode.OneFile \/ walk (Js.split Js.dot key) (root (this s)) <> None))
  \/ (addNode_outcome copy (Some key) (Some server) s = Js.Raised s
      /\ copy = RPCNode.Imported
      /\ walk (Js.split Js.dot key) (root (this s)) = None).
Proof.
  intros Hk. destruct (walk (Js.split Js.dot key) (root (this s))) as [target|] eqn:Hw.
  - left. split; [by apply (addNode_found _ _ _ _ target) | by right].
  - destruct copy.
    + right. split; [by apply addNode_imported_missing | done].
    + left. split; [by apply addNode_one_file | by left].
Qed.

(** The states in which [addNode] can end, for either copy and every
    argument. *)
Lemma addNode_state copy key server s :
  addNode copy key server s = s
  \/ (exists line, addNode copy key server s = emit (ConsoleError line) s)
  \/ (exists k h, k <> EmptyString
        /\ addNode copy key server s
           = set_root (bind_path (Js.split Js.dot k) h (root (this s))) s).
Proof.
  destruct (String.eqb (default EmptyString key) EmptyString) eqn:Hk.
  - right. left. eexists. unfold addNode, addNode_outcome. simpl. by rewrite Hk.
  - destruct server as [h|].
    + assert (default EmptyString key <> EmptyString) as Hne
        by (by apply String.eqb_neq).
      destruct key as [k|]; [|done]. simpl in Hne.
      destruct (addNode_cases copy k h s Hne) as [[Hout _]|[Hout _]].
      * right. right. exists k, h. split; [done|]. unfold addNode. by rewrite Hout.
      * left. unfold addNode. by rewrite Hout.
    + right. left. eexists. unfold addNode, addNode_outcome. simpl. by rewrite Hk.
Qed.

Lemma lookup_bind_other key key' server s :
  Js.split Js.dot key' <> Js.split Js.dot key ->
  lookup key' (set_root (bind_path (Js.split Js.dot key) server (root (this s))) s)
  = lookup key' s.
Proof.
  intros Hne. unfold lookup. simpl.
  destruct (String.eqb key' EmptyString).
  - destruct (Js.split Js.dot key) as [|k ks] eqn:Hs; [by apply split_nonempty in Hs|].
    reflexivity.
  - by apply bind_path_other.
Qed.

Lemma lookup_bind_hit key server s :
  key <> EmptyString ->
  lookup key (set_root (bind_path (Js.split Js.dot key) server (root (this s))) s)
  = Some (RPCNode.User server).
Proof.
  intros Hk. unfold lookup. simpl. rewrite eqb_empty_false by done. apply bind_path_hit.
Qed.

Lemma lookup_addNode_other key key' server s :
  key <> EmptyString ->
  Js.split Js.dot key' <> Js.split Js.dot key ->
  lookup key' (addNode RPCNode.OneFile (Some key) (Some server) s) = lookup key' s.
Proof.
  intros Hk Hne. unfold addNode. rewrite addNode_one_file by done.
  by apply lookup_bind_other.
Qed.

Lemma lookup_addNode_hit key server s :
  key <> EmptyString ->
  lookup key (addNode RPCNode.OneFile (Some key) (Some server) s)
  = Some (RPCNode.User server).
Proof.
  intros Hk. unfold addNode. rewrite addNode_one_file by done.
  by apply lookup_bind_hit.
Qed.

(** With the one-file copy of the library: after [addNode("a.b.c", h)], a
    dispatch of the key "a.b.c" resolves to [h] and calls it
    (forwarding what it returns); every other key, in particular every
    ancestor and descendant path, resolves to what it resolved to
    before; and on a client fresh from the constructor the keys "a.b"
    and "a.b.c.d" resolve to no handler: a dispatch of "a.b" changes
    nothing, one of "a.b.c.d" only writes "No such node" to the
    console. *)
Lemma addNode_binds_only_final_node (h : H) s :
  let s' := addNode RPCNode.OneFile (Some "a.b.c") (Some h) s in
  lookup "a.b.c" s' = Some (RPCNode.User h)
  /\ (forall u st m rq ps now,
        let data := APIResponse.mk u st m "a.b.c" rq ps in
        handle data now s' =
        let (re, s1) := call_user h data s' in
        match re with
        | Some re => send re None s1
        | None => s1
        end)
  /\ (forall k, Js.split Js.dot k <> ["a"; "b"; "c"] -> lookup k s' = lookup k s)
  /\ (forall ssl url token bf (w : World) u st m rq ps now,
        let s0 := addNode RPCNode.OneFile (Some "a.b.c") (Some h)
                    (constructor ssl url token bf w) in
        lookup "a.b" s0 = None
        /\ lookup "a.b.c.d" s0 = None
        /\ handle (APIResponse.mk u st m "a.b" rq ps) now s0 = s0
        /\ handle (APIResponse.mk u st m "a.b.c.d" rq ps) now s0
           = emit (ConsoleError "SimpleRPC: No such node a.b.c.d") s0).
Proof.
  intros s'. assert ("a.b.c" <> EmptyString) as Hk by done.
  split; [by apply lookup_addNode_hit|]. split; [|split].
  - intros u st m rq ps now data.
    apply (handle_routed data now s' (RPCNode.User h)); [done|].
    by apply lookup_addNode_hit.
  - intros k Hne. by apply lookup_addNode_other.
  - intros ssl url token bf w u st m rq ps now s0. subst s0.
    rewrite !lookup_addNode_other by done. repeat split; reflexivity.
Qed.

(** C5 (what the code does). The client imports [RPCNode] from
    [src/src/type.d.ts], whose [create] raises.  So on a client fresh from
    the constructor [addNode("a.b.c", h)] ends by that exception with
    the client as it was: the key "a.b.c" resolves to nothing, and a
    dispatch of it only writes "No such node a.b.c" to the console.
    The same happens in every state for every key one of whose
    segments has no node.  With the one-file copy of the library, whose
    [create] makes the node, the key resolves to [h]. *)
Theorem addNode_raises_on_missing_node (h : H) :
  (forall ssl url token bf (w : World) u st m rq ps now,
      let s0 := constructor (H:=H) ssl url token bf w in
      let s' := addNode RPCNode.Imported (Some "a.b.c") (Some h) s0 in
      addNode_outcome RPCNode.Imported (Some "a.b.c") (Some h) s0 = Js.Raised s0
      /\ s' = s0
      /\ lookup "a.b.c" s' = None
      /\ handle (APIResponse.mk u st m "a.b.c" rq ps) now s'
         = emit (ConsoleError "SimpleRPC: No such node a.b.c") s')
  /\ (forall key (s : State (H:=H) (World:=World)),
        key <> EmptyString ->
        walk (Js.split Js.dot key) (root (this s)) = None ->
        addNode_outcome RPCNode.Imported (Some key) (Some h) s = Js.Raised s
        /\ lookup key (addNode RPCNode.Imported (Some key) (Some h) s) = None)
  /\ (forall (s : State (H:=H) (World:=World)),
        addNode_outcome RPCNode.OneFile (Some "a.b.c") (Some h) s
        = Js.Returned (addNode RPCNode.OneFile (Some "a.b.c") (Some h) s)
        /\ lookup "a.b.c" (addNode RPCNode.OneFile (Some "a.b.c") (Some h) s)
           = Some (RPCNode.User h)).
Proof.
  split; [|split].
  - intros ssl url token bf w u st m rq ps now s0 s'.
    assert (addNode_outcome RPCNode.Imported (Some "a.b.c") (Some h) s0 = Js.Raised s0)
      as Hraise by (by apply addNode_imported_missing).
    assert (s' = s0) as -> by (subst s'; unfold addNode; by rewrite Hraise).
    split; [exact Hraise|]. repeat split; reflexivity.
  - intros key s Hk Hw.
    assert (addNode_outcome RPCNode.Imported (Some key) (Some h) s = Js.Raised s)
      as Hraise by (by apply addNode_imported_missing).
    split; [exact Hraise|]. unfold addNode. rewrite Hraise. simpl.
    unfold lookup, handler_at. rewrite eqb_empty_false by done. by rewrite Hw.
  - intros s. assert ("a.b.c" <> EmptyString) as Hk by done.
    split; [|by apply lookup_addNode_hit].
    unfold addNode. by rewrite addNode_one_file.
Qed.

(** C6. When "a.b.c" is reachable, [removeNode("a.b")] deletes the child
    "b" from the node of "a", which is otherwise kept: every key below
    "a.b" then resolves to nothing, "a.b.c" included, and every other
    key resolves as before.  [removeNode] of a key one of whose
    segments is missing returns the state as it was, log included. *)
Theorem removeNode_detaches_subtree :
  (forall s n,
      walk ["a"; "b"; "c"] (root (this s)) = Some n ->
      let s' := removeNode (Some "a.b") s in
      lookup "a.b.c" s' = None
      /\ (forall rest, walk ("a" :: "b" :: rest) (root (this s')) = None)
      /\ (exists parent,
            walk ["a"] (root (this s)) = Some parent
            /\ walk ["a"] (root (this s')) =
                 Some (RPCNode.set_children
                         (delete "b" (RPCNode.getChildren parent)) parent))
      /\ (forall k, ~ ["a"; "b"] `prefix_of` Js.split Js.dot k ->
                    lookup k s' = lookup k s)
      /\ world s' = world s /\ log s' = log s)
  /\ (forall key s,
        key <> EmptyString ->
        walk (Js.split Js.dot key) (root (this s)) = None ->
        removeNode (Some key) s = s).
Proof.
  split.
  - intros s n Hw s'.
    change ["a"; "b"; "c"] with (["a"] ++ ["b"] ++ ["c"])%list in Hw.
    rewrite walk_app in Hw.
    destruct (walk ["a"] (root (this s))) as [parent|] eqn:Hparent; [|done].
    assert (is_Some (RPCNode.getChildren parent !! "b")) as Hb.
    { simpl in Hw. destruct (RPCNode.getChildren parent !! "b"); [eauto | done]. }
    destruct (unlink_path_found ["a"] "b" _ _ Hparent Hb)
      as (r & Hu & Hp & Hgone & Hother).
    assert (s' = set_root r s) as ->.
    { subst s'. unfold removeNode.
      change (unlink_path _ (root (this s)))
        with (unlink_path (["a"] ++ ["b"])%list (root (this s))).
      by rewrite Hu. }
    split; [|split; [|split; [|split]]].
    + unfold lookup, handler_at. simpl root.
      change (Js.split Js.dot "a.b.c") with (["a"] ++ "b" :: ["c"])%list.
      by rewrite Hgone.
    + intros rest. apply (Hgone rest).
    + exists parent. split; [done | exact Hp].
    + intros k Hpre. unfold lookup. simpl root.
      destruct (String.eqb k EmptyString) eqn:Hk.
      * apply (Hother [] ). intros [? ?]; done.
      * by apply Hother.
    + by destruct s as [[] ? ?].
  - intros key s Hk Hw. unfold removeNode. simpl. rewrite eqb_empty_false by done.
    rewrite unlink_path_missing; [done | apply split_nonempty | done].
Qed.

(** C7. With a node "x" under the root that has no child "y", a dispatch
    of the key "x.y" only writes the line "No such node x.y" to the
    console: the client and the callers' state are as before, and no
    handler call and no send enter the log. *)
Theorem handle_missing_child_only_logs data now s (nx : RPCNode.t H) :
  APIResponse.key data = "x.y" ->
  RPCNode.getChildren (root (this s)) !! "x" = Some nx ->
  RPCNode.getChildren nx !! "y" = None ->
  handle data now s = emit (ConsoleError "SimpleRPC: No such node x.y") s.
Proof.
  intros Hk Hx Hy. unfold handle. rewrite Hk.
  change (String.eqb "x.y" EmptyString) with false.
  change (Js.split Js.dot "x.y") with ["x"; "y"]. cbn [walk]. rewrite Hx.
  cbn [walk]. by rewrite Hy.
Qed.

(** C9. A dispatch whose key is not empty and leads to a node without a
    handler returns the state as it was: nothing is called, sent or
    logged. *)
Theorem handle_unbound_node_is_noop data now s (node : RPCNode.t H) :
  APIResponse.key data <> EmptyString ->
  walk (Js.split Js.dot (APIResponse.key data)) (root (this s)) = Some node ->
  RPCNode.rpcServer node = None ->
  handle data now s = s.
Proof.
  intros Hk Hw Hnone. unfold handle. rewrite eqb_empty_false by done.
  by rewrite Hw, Hnone.
Qed.

End Dispatch.

(** ** The registry *)

Section CacheMap.
Context {K V : Type} `{EqDecision K}.
Import TimedCache.

Implicit Types (m : list (K * CacheItem V)) (key : K).

Lemma map_get_set_eq key item m : map_get key (map_set key item m) = Some item.
Proof.
  induction m as [|[k old] m IH]; simpl.
  - by rewrite decide_True.
  - destruct (decide (k = key)) as [->|Hne]; simpl.
    + by rewrite decide_True.
    + by rewrite decide_False.
Qed.

Lemma map_get_delete_eq key m : map_get key (map_delete key m) = None.
Proof.
  induction m as [|[k item] m IH]; simpl; [done|].
  destruct (decide (k = key)); simpl; [done|]. by rewrite decide_False.
Qed.

Lemma map_get_delete_ne key key' m :
  key <> key' -> map_get key' (map_delete key m) = map_get key' m.
Proof.
  intros Hne. induction m as [|[k item] m IH]; simpl; [done|].
  destruct (decide (k = key)) as [->|Hk]; simpl.
  - by rewrite decide_False.
  - by rewrite IH.
Qed.

Lemma map_get_delete_None key key' m :
  map_get key' m = None -> map_get key' (map_delete key m) = None.
Proof.
  destruct (decide (key = key')) as [->|Hne].
  - intros _. apply map_get_delete_eq.
  - by rewrite map_get_delete_ne.
Qed.

Lemma map_delete_absent key m : map_get key m = None -> map_delete key m = m.
Proof.
  induction m as [|[k item] m IH]; simpl; [done|].
  destruct (decide (k = key)); [done|]. intros Hm. by rewrite IH.
Qed.

(** In a store with one entry per key, [get] finds each listed entry. *)
Lemma map_get_In key item m :
  NoDup (map fst m) -> In (key, item) m -> map_get key m = Some item.
Proof.
  induction m as [|[k i] m IH]; simpl; [done|].
  intros Hnd [Heq|Hin].
  - injection Heq as -> ->. by rewrite decide_True.
  - apply NoDup_cons in Hnd as [Hk Hnd].
    destruct (decide (k = key)) as [->|Hne]; [|by apply IH].
    exfalso. apply Hk. apply list_elem_of_In.
    change key with (fst (key, item)). by apply in_map.
Qed.

End CacheMap.

Section Registry.
Context {H World : Type} `{RPCServer H World}.
Import TimedCache.

Implicit Types (s : State (H:=H) (World:=World)) (data : APIResponse.t).

Lemma call_user_spec h data s :
  call_user h data s =
  (fst (handle_method h data (world s)),
   mkState (this s) (snd (handle_method h data (world s))) (log s ++ [Invoke h data])).
Proof. unfold call_user. by destruct (handle_method h data (world s)). Qed.

Lemma call_then_send h data s :
  (let (re, s1) := call_user h data s in
   match re with
   | Some re => send re None s1
   | None => s1
   end) = answered h data s.
Proof.
  rewrite call_user_spec. unfold answered, forwarded.
  destruct (fst (handle_method h data (world s))) as [re|]; [|done].
  rewrite send_spec. unfold emit. simpl. by rewrite <- app_assoc.
Qed.

(** The callback the constructor gives the registry: the handler is
    called with the envelope of the timeout and its result forwarded;
    the call raises when that [send] does. *)
Lemma onClear_spec key h s :
  onClear key h s =
  if timeout_raises h key s then Js.Raised (answered h (timeout_request key) s)
  else Js.Returned (answered h (timeout_request key) s).
Proof.
  unfold onClear, timeout_raises.
  change (APIResponse.new (Some key) (Some 408%Z) (Some "Request timeout") None None None)
    with (timeout_request key).
  rewrite <- (call_then_send h (timeout_request key) s). rewrite call_user_spec.
  destruct (fst (handle_method h (timeout_request key) (world s))) as [re|]; [|done].
  unfold send_outcome.
  change (send_raises (mkState _ _ _)) with (send_raises s).
  by destruct (send_raises s).
Qed.

(** The root object on its three cases: a live entry, an entry whose
    time has passed, no entry. *)
Lemma root_handle_live data now s item :
  map_get (APIResponse.UUID data) (entries s) = Some item ->
  (now < expiry item)%Z ->
  root_handle data now s =
  (None, answered (value item) data
           (set_server_cache (remove (APIResponse.UUID data) (server_cache (this s))) s)).
Proof.
  intros Hget Hlt. unfold entries in Hget. unfold root_handle, get. rewrite Hget.
  apply Z.ltb_lt in Hlt. rewrite Hlt. rewrite set_server_cache_id.
  rewrite <- call_then_send.
  destruct (call_user _ _ _) as [[re|] s3]; reflexivity.
Qed.

Lemma root_handle_expired data now s item :
  map_get (APIResponse.UUID data) (entries s) = Some item ->
  (expiry item <= now)%Z ->
  root_handle data now s =
  (None, set_server_cache (remove (APIResponse.UUID data) (server_cache (this s))) s).
Proof.
  intros Hget Hle. unfold entries in Hget. unfold root_handle, get. rewrite Hget.
  apply Z.ltb_ge in Hle. by rewrite Hle.
Qed.

Lemma root_handle_miss data now s :
  map_get (APIResponse.UUID data) (entries s) = None ->
  root_handle data now s = (None, s).
Proof.
  intros Hget. unfold entries in Hget. unfold root_handle, get. rewrite Hget.
  rewrite map_delete_absent by done.
  replace (with_cache _ _) with (server_cache (this s))
    by (by destruct (server_cache (this s))).
  by rewrite set_server_cache_id.
Qed.

Lemma root_handle_null data now s : fst (root_handle data now s) = None.
Proof.
  unfold root_handle. destruct (get _ _ _) as [[server|] tc]; [|done].
  destruct (call_user _ _ _) as [[re|] s3]; reflexivity.
Qed.

Lemma handle_root data now s :
  adapter_installed s ->
  APIResponse.key data = EmptyString ->
  handle data now s = snd (root_handle data now s).
Proof. intros Hroot Hk. unfold handle. rewrite Hk. simpl. by rewrite Hroot. Qed.

Lemma sends_forwarded re s : sends (forwarded re s) <= 1.
Proof. destruct re; unfold sends; simpl; lia. Qed.

(** C10. The object on the root returns [null] in every case, having
    itself sent what the registered handler returned; [handle] with an
    empty key ends with that call and sends nothing of its own, so a
    dispatch with an empty key hands at most one frame to the
    transport: the handler's result when a live entry is found, none
    otherwise. *)
Theorem root_adapter_forwards_once data now s :
  let s' := snd (root_handle data now s) in
  fst (root_handle data now s) = None
  /\ (adapter_installed s -> APIResponse.key data = EmptyString ->
      handle data now s = s')
  /\ (forall h e,
        map_get (APIResponse.UUID data) (entries s) = Some (mkItem h e) ->
        (now < e)%Z ->
        log s' = log s ++ Invoke h data
                          :: forwarded (fst (handle_method h data (world s))) s)
  /\ (exists added, log s' = log s ++ added /\ sends added <= 1).
Proof.
  intros s'. subst s'.
  split; [apply root_handle_null|]. split; [by intros; apply handle_root|].
  destruct (map_get (APIResponse.UUID data) (entries s)) as [item|] eqn:Hget.
  - destruct (Z.lt_ge_cases now (expiry item)) as [Hlt|Hge].
    + rewrite (root_handle_live _ _ _ _ Hget Hlt). split.
      * intros h e [= ->] _. reflexivity.
      * eexists. split; [reflexivity|]. apply sends_forwarded.
    + rewrite (root_handle_expired _ _ _ _ Hget Hge). split.
      * intros h e [= ->] Hlt. simpl in Hge. lia.
      * exists []. split; [by rewrite app_nil_r | unfold sends; simpl; lia].
  - rewrite (root_handle_miss _ _ _ Hget). split.
    + intros h e [=].
    + exists []. split; [by rewrite app_nil_r | unfold sends; simpl; lia].
Qed.

(** C2. After [sendAndCallBack(message, useBin, h)] at time [t0], a
    dispatch at a time [t1] before the entry expires, of an envelope
    with an empty key and the UUID of [message], calls [h] once with
    that envelope, forwards what it returns, and leaves no entry for
    the UUID; dispatching the envelope again, at any time, changes
    nothing: no call, no send, no line on the console. *)
Theorem callback_fires_once (h : H) (message data : APIResponse.t)
    (useBin : option bool) (t0 t1 : Z) s :
  adapter_installed s ->
  APIResponse.key data = EmptyString ->
  APIResponse.UUID data = APIResponse.UUID message ->
  (t1 < t0 + ttl (server_cache (this s)))%Z ->
  let s1 := sendAndCallBack message useBin h t0 s in
  let s2 := handle data t1 s1 in
  log s2 = log s1 ++ Invoke h data
                     :: forwarded (fst (handle_method h data (world s))) s
  /\ world s2 = snd (handle_method h data (world s))
  /\ map_get (APIResponse.UUID data) (entries s2) = None
  /\ (forall t2, handle data t2 s2 = s2).
Proof.
  intros Hroot Hk Hid Hlt s1 s2.
  assert (adapter_installed s1) as Hroot1.
  { subst s1. unfold sendAndCallBack. rewrite send_spec. exact Hroot. }
  assert (map_get (APIResponse.UUID data) (entries s1)
          = Some (mkItem h (t0 + ttl (server_cache (this s)))%Z)) as Hget.
  { subst s1. unfold sendAndCallBack. rewrite send_spec, Hid. simpl.
    apply map_get_set_eq. }
  assert (s2 = answered h data
                 (set_server_cache
                    (remove (APIResponse.UUID data) (server_cache (this s1))) s1))
    as Hs2.
  { subst s2. rewrite (handle_root _ _ _ Hroot1 Hk).
    by rewrite (root_handle_live _ _ _ _ Hget Hlt). }
  assert (world s1 = world s /\ bin_first (this s1) = bin_first (this s))
    as [Hw Hbf].
  { subst s1. unfold sendAndCallBack. rewrite send_spec. done. }
  assert (map_get (APIResponse.UUID data) (entries s2) = None) as Hgone.
  { rewrite Hs2. simpl. apply map_get_delete_eq. }
  split; [|split; [|split]].
  - rewrite Hs2. simpl. rewrite Hw. unfold forwarded. simpl. by rewrite Hbf.
  - rewrite Hs2. simpl. by rewrite Hw.
  - exact Hgone.
  - intros t2.
    assert (adapter_installed s2) as Hroot2 by (rewrite Hs2; exact Hroot1).
    rewrite (handle_root _ _ _ Hroot2 Hk).
    by rewrite (root_handle_miss _ _ _ Hgone).
Qed.

End Registry.

(** ** The sweep *)

Section Sweep.
Context {H World : Type} `{RPCServer H World}.
Import TimedCache.

Implicit Types (s : State (H:=H) (World:=World)).

Lemma sweep_outcome_unfold now s : sweep_outcome now s = sweep_rest now (entries s) s.
Proof. reflexivity. Qed.

Lemma settle_spec now s key item :
  settle now s (key, item) =
  if (expiry item <=? now)%Z then
    set_server_cache
      (remove key (server_cache (this (answered (value item) (timeout_request key) s))))
      (answered (value item) (timeout_request key) s)
  else s.
Proof. reflexivity. Qed.

(** One turn of the sweep: an entry whose expiry is ahead is passed; for
    the others the handler is called and its result forwarded, and then
    either that has raised, and the turn ends there with the entry
    still stored, or the entry is deleted. *)
Lemma sweep_turn_spec now s key item :
  sweep_turn now s (key, item) =
  if (expiry item <=? now)%Z then
    if timeout_raises (value item) key s
    then Js.Raised (answered (value item) (timeout_request key) s)
    else Js.Returned (settle now s (key, item))
  else Js.Returned s.
Proof.
  unfold sweep_turn, sweep_entry. rewrite settle_spec.
  destruct (expiry item <=? now)%Z; [|done].
  rewrite onClear_spec. by destruct (timeout_raises _ _ _).
Qed.

Lemma sweep_rest_cons now entry rest s :
  sweep_rest now (entry :: rest) s =
  match sweep_turn now s entry with
  | Js.Returned s1 => sweep_rest now rest s1
  | Js.Raised s1 => Js.Raised s1
  end.
Proof. reflexivity. Qed.

Lemma sweep_rest_app now l1 l2 s :
  sweep_rest now (l1 ++ l2) s =
  match sweep_rest now l1 s with
  | Js.Returned s1 => sweep_rest now l2 s1
  | Js.Raised s1 => Js.Raised s1
  end.
Proof.
  revert s. induction l1 as [|entry l1 IH]; intros s; [done|].
  rewrite <- app_comm_cons, !sweep_rest_cons.
  destruct (sweep_turn now s entry); [apply IH | done].
Qed.

Lemma send_raises_settle now s entry : send_raises (settle now s entry) = send_raises s.
Proof. unfold settle. by destruct (expiry (snd entry) <=? now)%Z. Qed.

(** As long as [send] does not raise, the sweep is the run of its turns
    one after the other. *)
Lemma sweep_rest_quiet now l s :
  send_raises s = false ->
  sweep_rest now l s = Js.Returned (fold_left (settle now) l s).
Proof.
  revert s. induction l as [|[k item] l IH]; intros s Hquiet; [done|].
  rewrite sweep_rest_cons, sweep_turn_spec. cbn [fold_left].
  assert (timeout_raises (value item) k s = false) as ->.
  { unfold timeout_raises. rewrite Hquiet. by destruct (fst _). }
  destruct (expiry item <=? now)%Z eqn:He.
  - apply IH. by rewrite send_raises_settle.
  - rewrite settle_spec, He. by apply IH.
Qed.

Lemma sweep_unfold now s :
  send_raises s = false -> sweep now s = fold_left (settle now) (entries s) s.
Proof.
  intros Hquiet. unfold sweep. rewrite sweep_outcome_unfold.
  by rewrite sweep_rest_quiet.
Qed.

(** What every step of a sweep keeps, the sweep keeps, however it ends. *)
Lemma sweep_rest_keeps (P : State (H:=H) (World:=World) -> Prop) now l s :
  (forall h key s0, P s0 -> P (answered h (timeout_request key) s0)) ->
  (forall key s0, key ∈ map fst l -> P s0 ->
     P (set_server_cache (remove key (server_cache (this s0))) s0)) ->
  P s -> P (Js.state_of (sweep_rest now l s)).
Proof.
  intros Hanswered. revert s.
  induction l as [|[k item] l IH]; intros s Hremove Hs; [done|].
  assert (forall key s0, key ∈ map fst l -> P s0 ->
            P (set_server_cache (remove key (server_cache (this s0))) s0)) as Hrest.
  { intros key s0 Hin. apply Hremove. simpl. by apply elem_of_cons; right. }
  rewrite sweep_rest_cons, sweep_turn_spec, settle_spec.
  destruct (expiry item <=? now)%Z; [|by apply IH].
  destruct (timeout_raises _ _ _).
  - apply (Hanswered (value item) k s Hs).
  - apply IH; [exact Hrest|]. apply Hremove; [simpl; by apply elem_of_cons; left|].
    apply Hanswered, Hs.
Qed.

Lemma sweep_rest_other now l s key :
  key ∉ map fst l ->
  map_get key (entries (Js.state_of (sweep_rest now l s))) = map_get key (entries s).
Proof.
  intros Hnotin.
  apply (sweep_rest_keeps
           (fun s0 => map_get key (entries s0) = map_get key (entries s))); [done| |done].
  intros k s0 Hin <-. unfold entries. simpl. apply map_get_delete_ne.
  intros ->. by apply Hnotin.
Qed.

Lemma sweep_rest_gone now l s key :
  map_get key (entries s) = None ->
  map_get key (entries (Js.state_of (sweep_rest now l s))) = None.
Proof.
  intros Hnone.
  apply (sweep_rest_keeps (fun s0 => map_get key (entries s0) = None)); [done| |done].
  intros k s0 _ Hs0. unfold entries. simpl. by apply map_get_delete_None.
Qed.

Lemma send_raises_sweep now s : send_raises (sweep now s) = send_raises s.
Proof.
  unfold sweep. rewrite sweep_outcome_unfold.
  by apply (sweep_rest_keeps (fun s0 => send_raises s0 = send_raises s)).
Qed.

(** A sweep that finds no entry at its expiry returns at once. *)
Lemma sweep_rest_noop now (l : list (string * CacheItem H)) s :
  (forall entry, In entry l -> (now < expiry (snd entry))%Z) ->
  sweep_rest now l s = Js.Returned s.
Proof.
  induction l as [|[k item] l IH]; intros Hlive; [done|].
  rewrite sweep_rest_cons, sweep_turn_spec.
  assert (now < expiry item)%Z as Hlt by (apply (Hlive (k, item)); by left).
  replace (expiry item <=? now)%Z with false by (symmetry; apply Z.leb_gt; lia).
  apply IH. intros entry Hin. apply Hlive. by right.
Qed.

(** The turn of one entry within a whole sweep. *)
Lemma sweep_entry_outcome (K : string) (h : H) (e now : Z) s before after :
  NoDup (map fst (entries s)) ->
  entries s = before ++ (K, mkItem h e) :: after ->
  (e <= now)%Z ->
  match sweep_rest now before s with
  | Js.Raised s0 => sweep_outcome now s = Js.Raised s0
  | Js.Returned s0 =>
      let s1 := answered h (timeout_request K) s0 in
      let re := fst (handle_method h (timeout_request K) (world s0)) in
      map_get K (entries s0) = Some (mkItem h e)
      /\ onClear K h s0 = (if timeout_raises h K s0 then Js.Raised s1 else Js.Returned s1)
      /\ log s1 = log s0 ++ Invoke h (timeout_request K) :: forwarded re s0
      /\ world s1 = snd (handle_method h (timeout_request K) (world s0))
      /\ map_get K (entries s1) = Some (mkItem h e)
      /\ if timeout_raises h K s0
         then sweep_outcome now s = Js.Raised s1
              /\ map_get K (entries (sweep now s)) = Some (mkItem h e)
         else sweep_outcome now s =
                sweep_rest now after
                  (set_server_cache (remove K (server_cache (this s1))) s1)
              /\ map_get K (entries (sweep now s)) = None
  end.
Proof.
  intros Hnd Hsplit Hle.
  assert (K ∉ map fst before) as Hfresh.
  { rewrite Hsplit, map_app in Hnd. apply NoDup_app in Hnd as (_ & Hdisj & _).
    intros Hk. apply (Hdisj K Hk). simpl. left. }
  assert (map_get K (entries s) = Some (mkItem h e)) as Hstored.
  { apply map_get_In; [done|]. rewrite Hsplit. apply in_or_app. right. by left. }
  pose proof (sweep_rest_other now before s K Hfresh) as Hstill.
  unfold sweep. rewrite sweep_outcome_unfold, Hsplit, sweep_rest_app.
  destruct (sweep_rest now before s) as [s0|s0]; [|done].
  simpl in Hstill. rewrite Hstored in Hstill.
  rewrite sweep_rest_cons, sweep_turn_spec, settle_spec. cbn [expiry value snd fst].
  apply Z.leb_le in Hle. rewrite Hle.
  split; [done|]. split; [apply onClear_spec|]. split; [done|]. split; [done|].
  split; [exact Hstill|].
  destruct (timeout_raises h K s0); [by split|].
  split; [done|]. apply sweep_rest_gone. unfold entries. simpl.
  apply map_get_delete_eq.
Qed.


Lemma settle_gone now s entry key :
  map_get key (entries s) = None ->
  map_get key (entries (settle now s entry)) = None.
Proof.
  destruct entry as [k item]. intros Hnone. rewrite settle_spec.
  destruct (expiry item <=? now)%Z; [|done].
  unfold entries. simpl. by apply map_get_delete_None.
Qed.

End Sweep.

(** C3 (what the code does). The sweep visits the entries in the order
    of the registry.  For an entry [(K, h)] whose expiry is not after
    [now], in the state [s0] the loop has reached, where the entry is
    still stored, [h] is called with the envelope of UUID [K], status
    408 and message "Request timeout", and what it returns is handed to
    [send] unless it is [null]; the deletion comes after that, and only
    when [send] has returned.  While the transport is still connecting
    [send] raises: the sweep ends there, the entry stays in the
    registry with its handler called, and the entries after it are
    neither visited nor deleted.  So on a client that waits for its
    connection with two expired entries of which the first handler
    answers, this handler is called and the second is not, and both
    entries are still stored; once the transport has opened the same
    sweep calls both and empties the registry. *)
Theorem sweep_stops_when_send_raises :
  (forall (H World : Type) (R : RPCServer H World) (K : string) (h : H) (e now : Z)
          (s : State (H:=H) (World:=World)) before after,
      NoDup (map fst (entries s)) ->
      entries s = before ++ (K, TimedCache.mkItem h e) :: after ->
      (e <= now)%Z ->
      timeout_request K =
        APIResponse.new (Some K) (Some 408%Z) (Some "Request timeout") None None None
      /\ match sweep_rest now before s with
         | Js.Raised s0 => sweep_outcome now s = Js.Raised s0
         | Js.Returned s0 =>
             let s1 := answered h (timeout_request K) s0 in
             let re := fst (handle_method h (timeout_request K) (world s0)) in
             TimedCache.map_get K (entries s0) = Some (TimedCache.mkItem h e)
             /\ log s1 = log s0 ++ Invoke h (timeout_request K) :: forwarded re s0
             /\ TimedCache.map_get K (entries s1) = Some (TimedCache.mkItem h e)
             /\ if timeout_raises h K s0
                then re <> None /\ send_raises s0 = true
                     /\ sweep_outcome now s = Js.Raised s1
                     /\ TimedCache.map_get K (entries (sweep now s))
                        = Some (TimedCache.mkItem h e)
                else sweep_outcome now s =
                       sweep_rest now after
                         (set_server_cache
                            (TimedCache.remove K (server_cache (this s1))) s1)
                     /\ TimedCache.map_get K (entries (sweep now s)) = None
         end)
  /\ (send_raises Cases.stuck = true
      /\ entries Cases.stuck
         = [("first", TimedCache.mkItem 2%nat 121000%Z);
            ("second", TimedCache.mkItem 4%nat 125000%Z)]
      /\ fst (handle_method 4%nat (timeout_request "second") (world Cases.stuck)) <> None
      /\ sweep_outcome 200000%Z Cases.stuck
         = Js.Raised (answered 2%nat (timeout_request "first") Cases.stuck)
      /\ entries (sweep 200000%Z Cases.stuck) = entries Cases.stuck
      /\ log (sweep 200000%Z Cases.stuck)
         = [Invoke 2%nat (timeout_request "first");
            WsSend (encode (timeout_request "first") false)]
      /\ entries (sweep 200000%Z (sweep 200000%Z Cases.stuck)) = entries Cases.stuck
      /\ invocations (log (sweep 200000%Z (sweep 200000%Z Cases.stuck)))
         = [(2%nat, timeout_request "first"); (2%nat, timeout_request "first")])
  /\ (entries (sweep 200000%Z Sample.pending)
      = [("late", TimedCache.mkItem 2%nat 125000%Z)]
      /\ Js.raised (sweep_outcome 200000%Z Sample.pending) = true)
  /\ (Js.raised (sweep_outcome 200000%Z (on_open Cases.stuck)) = false
      /\ entries (sweep 200000%Z (on_open Cases.stuck)) = []
      /\ invocations (log (sweep 200000%Z (on_open Cases.stuck)))
         = [(2%nat, timeout_request "first"); (4%nat, timeout_request "second")]).
Proof.
  split; [|by vm_compute].
  intros H World R K h e now s before after Hnd Hsplit Hle. split; [done|].
  pose proof (sweep_entry_outcome K h e now s before after Hnd Hsplit Hle) as Hturn.
  destruct (sweep_rest now before s) as [s0|s0]; [|exact Hturn].
  destruct Hturn as (Hstored & _ & Hlog & _ & Hkept & Hend).
  split; [exact Hstored|]. split; [exact Hlog|]. split; [exact Hkept|].
  destruct (timeout_raises h K s0) eqn:Hraises; [|exact Hend].
  destruct Hend as [Hout Hstays].
  unfold timeout_raises in Hraises.
  destruct (fst (handle_method h (timeout_request K) (world s0))); [|done].
  by repeat split.
Qed.

(** ** What holds in every state the client can reach *)

Section Invariant.
Context {H World : Type} `{RPCServer H World}.
Import TimedCache.

Implicit Types (s : State (H:=H) (World:=World)).

Lemma map_delete_keys {K V} `{EqDecision K} (key k : K) (m : list (K * CacheItem V)) :
  k ∈ map fst (map_delete key m) -> k ∈ map fst m.
Proof.
  induction m as [|[k' item] m IH]; simpl; [done|].
  destruct (decide (k' = key)); simpl; rewrite !elem_of_cons; intuition.
Qed.

Lemma map_delete_NoDup {K V} `{EqDecision K} (key : K) (m : list (K * CacheItem V)) :
  NoDup (map fst m) -> NoDup (map fst (map_delete key m)).
Proof.
  induction m as [|[k item] m IH]; simpl; [done|].
  intros [Hk Hnd]%NoDup_cons.
  destruct (decide (k = key)); simpl; [by apply IH|].
  apply NoDup_cons. split; [|by apply IH].
  intros Hin. by apply Hk, (map_delete_keys key).
Qed.

Lemma map_set_keys {K V} `{EqDecision K} (key k : K) item (m : list (K * CacheItem V)) :
  k ∈ map fst (map_set key item m) -> k = key \/ k ∈ map fst m.
Proof.
  induction m as [|[k' old] m IH]; simpl.
  - rewrite elem_of_cons. intros [->|Hin]; [by left | by right].
  - destruct (decide (k' = key)); simpl; rewrite !elem_of_cons; intuition.
Qed.

Lemma map_set_NoDup {K V} `{EqDecision K} (key : K) item (m : list (K * CacheItem V)) :
  NoDup (map fst m) -> NoDup (map fst (map_set key item m)).
Proof.
  induction m as [|[k old] m IH]; simpl.
  - intros _. apply NoDup_singleton.
  - intros [Hk Hnd]%NoDup_cons.
    destruct (decide (k = key)) as [->|Hne]; simpl.
    + by apply NoDup_cons.
    + apply NoDup_cons. split; [|by apply IH].
      intros [->|Hin]%map_set_keys; done.
Qed.

Lemma unlink_path_root keys (node node' : RPCNode.t H) :
  unlink_path keys node = Some node' ->
  RPCNode.rpcServer node' = RPCNode.rpcServer node.
Proof.
  destruct keys as [|k keys]; simpl; [by intros [= <-]|].
  destruct (RPCNode.getChildren node !! k); [|done].
  destruct keys; [by intros [= <-]|].
  destruct (unlink_path _ _); [by intros [= <-] | done].
Qed.

Lemma well_formed_send message useBin s : well_formed s -> well_formed (send message useBin s).
Proof. by rewrite send_spec. Qed.

Lemma well_formed_answered h data s : well_formed s -> well_formed (answered h data s).
Proof. done. Qed.

Lemma well_formed_remove key s :
  well_formed s ->
  well_formed (set_server_cache (remove key (server_cache (this s))) s).
Proof. intros [Hroot Hnd]. split; [exact Hroot|]. by apply map_delete_NoDup. Qed.

Lemma well_formed_root_handle data now s :
  well_formed s -> well_formed (snd (root_handle data now s)).
Proof.
  intros Hwf.
  destruct (map_get (APIResponse.UUID data) (entries s)) as [item|] eqn:Hget.
  - destruct (Z.lt_ge_cases now (expiry item)) as [Hlt|Hge].
    + rewrite (root_handle_live _ _ _ _ Hget Hlt).
      by apply well_formed_answered, well_formed_remove.
    + rewrite (root_handle_expired _ _ _ _ Hget Hge). by apply well_formed_remove.
  - by rewrite (root_handle_miss _ _ _ Hget).
Qed.

Lemma well_formed_call server data now s :
  well_formed s -> well_formed (snd (call server data now s)).
Proof.
  destruct server as [|h]; simpl; [apply well_formed_root_handle|].
  by rewrite call_user_spec.
Qed.

Lemma well_formed_handle data now s : well_formed s -> well_formed (handle data now s).
Proof.
  intros Hwf. unfold handle.
  destruct (String.eqb _ _).
  - destruct (RPCNode.rpcServer _); [by apply well_formed_call | done].
  - destruct (walk _ _) as [node|]; [|done].
    destruct (RPCNode.rpcServer node) as [server|]; [|done].
    pose proof (well_formed_call server data now s Hwf) as Hcall.
    destruct (call server data now s) as [[re|] s1]; [by apply well_formed_send | done].
Qed.

Lemma well_formed_sweep now s : well_formed s -> well_formed (sweep now s).
Proof.
  intros Hwf. unfold sweep. rewrite sweep_outcome_unfold.
  apply (sweep_rest_keeps well_formed); [|intros key s0 _; apply well_formed_remove|done].
  intros h key s0. apply well_formed_answered.
Qed.

Lemma well_formed_step s s' : step s s' -> well_formed s -> well_formed s'.
Proof.
  intros Hstep Hwf. destruct Hstep.
  - done.
  - done.
  - unfold onmessage. destruct event; by try apply well_formed_handle.
  - by apply well_formed_sweep.
  - done.
  - destruct (addNode_state copy key server s) as [->|[[line ->]|(k & h & Hk & ->)]];
      [done|done|].
    destruct Hwf as [Hroot Hnd]. split; [|done].
    unfold adapter_installed in *. simpl.
    destruct (Js.split Js.dot k) as [|k0 ks] eqn:Hs; [by apply split_nonempty in Hs|].
    exact Hroot.
  - unfold removeNode. destruct (String.eqb _ _); [done|].
    destruct (unlink_path _ _) as [r|] eqn:Hu; [|done].
    destruct Hwf as [Hroot Hnd]. split; [|done].
    unfold adapter_installed in *. simpl. by rewrite (unlink_path_root _ _ _ Hu).
  - destruct Hwf as [Hroot Hnd]. split; [exact Hroot|]. by apply map_set_NoDup.
  - by apply well_formed_send.
  - apply well_formed_send. destruct Hwf as [Hroot Hnd].
    split; [exact Hroot|]. by apply map_set_NoDup.
Qed.

(** The hypotheses of the theorems above on the root and on the
    registry hold wherever the client can get to. *)
Lemma reachable_well_formed s : reachable s -> well_formed s.
Proof.
  induction 1 as [ssl url token bf w | s s' _ IH Hstep].
  - split; [reflexivity | apply NoDup_nil_2].
  - by apply (well_formed_step s s').
Qed.

End Invariant.

(** ** The guard of [send], the address, and the codecs *)

Section Transport.
Context {H World : Type} `{RPCServer H World}.

Implicit Types (s : State (H:=H) (World:=World)).

(** The test of [send] reads the constant [OPEN], not the ready state:
    it holds in every state. *)
Lemma send_guard_constant s :
  Js.truthy (WebSocket.OPEN (websocket_client (this s))) = true.
Proof. reflexivity. Qed.

Lemma close_not_open s : WebSocket.is_open (websocket_client (this (close s))) = false.
Proof.
  unfold close, WebSocket.is_open, WebSocket.close. simpl.
  destruct (Z.ltb_spec (WebSocket.readyState (websocket_client (this s))) 2).
  - reflexivity.
  - apply Z.eqb_neq. lia.
Qed.

(** C1 (what the code does). [send] hands the encoded envelope to the
    transport's [send] in every state, open or not.  So it does after
    [close()], when the transport is not open: the log gains the call
    of [close] and then the frame; and so it does on a client fresh
    from the constructor, whose transport is still connecting. *)
Theorem send_after_close_reaches_transport (message : APIResponse.t)
    (useBin : option bool) s :
  log (send message useBin s) =
    log s ++ [WsSend (encode message (default (bin_first (this s)) useBin))]
  /\ WebSocket.is_open (websocket_client (this (close s))) = false
  /\ log (send message useBin (close s)) =
       log s ++ [WsClose; WsSend (encode message (default (bin_first (this s)) useBin))]
  /\ send message useBin (close s) <> close s
  /\ (forall ssl url token bf (w : World),
        let s0 := constructor (H:=H) ssl url token bf w in
        WebSocket.is_open (websocket_client (this s0)) = false
        /\ log (send message useBin s0) =
             [WsSend (encode message (default (default false bf) useBin))]).
Proof.
  split; [by rewrite send_spec|].
  split; [apply close_not_open|].
  assert (log (send message useBin (close s)) =
          log s ++ [WsClose; WsSend (encode message (default (bin_first (this s)) useBin))])
    as Hlog.
  { rewrite send_spec. simpl. by rewrite <- app_assoc. }
  split; [exact Hlog|]. split.
  - intros Heq. rewrite Heq in Hlog. simpl in Hlog.
    apply app_inv_head in Hlog. discriminate.
  - intros ssl url token bf w s0. split; [reflexivity|]. by rewrite send_spec.
Qed.

End Transport.

(** C8 (what the code does). With the [ssl] flag set the address starts
    with the scheme [ws], without it with [wss]; a token that is not
    empty is left out of the address, and an empty one adds the bare
    parameter. *)
Theorem constructor_address_is_inverted :
  address true "example.com/rpc" "secret" = "ws://example.com/rpc"
  /\ address false "example.com/rpc" "secret" = "wss://example.com/rpc"
  /\ address true "example.com/rpc" EmptyString = "ws://example.com/rpc?token="
  /\ (forall (w : unit),
        WebSocket.url
          (websocket_client
             (this (constructor (H:=unit) (Some true) "example.com/rpc" (Some "secret") None w)))
        = "ws://example.com/rpc").
Proof. repeat split. Qed.

(** Round trips of plain values. *)






(** Decoding a frame that carries none of the fields gives the defaults. *)
Lemma handleStr_defaults :
  handleStr (Wire.mkData None None None None None None)
  = APIResponse.mk EmptyString 200%Z EmptyString EmptyString (Js.Str EmptyString) (Js.Map []).
Proof. reflexivity. Qed.

Lemma handleBin_defaults :
  handleBin (Wire.mkData None None None None None None)
  = APIResponse.mk EmptyString 200%Z EmptyString EmptyString (Js.Str EmptyString) (Js.Map []).
Proof. reflexivity. Qed.

(** Both codecs bring back the four fields of declared scalar type. *)
Lemma round_trip_scalars (env : APIResponse.t) :
  let viaText := handleStr (APIResponse.toJsonStr env) in
  let viaBinary := handleBin (APIResponse.toBsonBin env) in
  APIResponse.UUID viaText = APIResponse.UUID env
  /\ APIResponse.status viaText = APIResponse.status env
  /\ APIResponse.message viaText = APIResponse.message env
  /\ APIResponse.key viaText = APIResponse.key env
  /\ APIResponse.UUID viaBinary = APIResponse.UUID env
  /\ APIResponse.status viaBinary = APIResponse.status env
  /\ APIResponse.message viaBinary = APIResponse.message env
  /\ APIResponse.key viaBinary = APIResponse.key env.
Proof. repeat split. Qed.

(** C4 (what the code does). An envelope whose [params] is a [Map] with
    one entry: after [toJsonStr] and [handleStr] the [params] are an
    empty plain object, the entry is gone; after [toBsonBin] and
    [handleBin] the entry is there, in a plain object.  Neither result
    equals the envelope. *)
Theorem round_trip_changes_params :
  let env := APIResponse.mk "u1" 200%Z "ok" "a.b" (Js.Str "ping")
               (Js.Map [("n", Js.Number 1)]) in
  APIResponse.params (handleStr (APIResponse.toJsonStr env)) = Js.Object []
  /\ handleStr (APIResponse.toJsonStr env) <> env
  /\ APIResponse.params (handleBin (APIResponse.toBsonBin env))
     = Js.Object [("n", Js.Number 1)]
  /\ handleBin (APIResponse.toBsonBin env) <> env.
Proof. repeat split; discriminate. Qed.

(** ** The theorems at work on a small client *)

Lemma sweep_stops_when_send_raises_witness :
  let s := on_open Cases.stuck in
  let s1 := answered 4%nat (timeout_request "second")
              (Js.state_of
                 (sweep_rest 200000%Z [("first", TimedCache.mkItem 2%nat 121000%Z)] s)) in
  NoDup (map fst (entries s))
  /\ entries s = [("first", TimedCache.mkItem 2%nat 121000%Z)]
                 ++ ("second", TimedCache.mkItem 4%nat 125000%Z) :: []
  /\ (125000 <= 200000)%Z
  /\ TimedCache.map_get "second" (entries s1) = Some (TimedCache.mkItem 4%nat 125000%Z)
  /\ TimedCache.map_get "second" (entries (sweep 200000%Z s)) = None.
Proof.
  intros s s1.
  assert (NoDup (map fst (entries s))) as Hnd.
  { apply NoDup_cons. split; [|apply NoDup_singleton].
    intros Hin. apply list_elem_of_singleton in Hin. discriminate. }
  assert (125000 <= 200000)%Z as Hle by discriminate.
  destruct (proj1 sweep_stops_when_send_raises nat nat sample_server "second" 4%nat
              125000%Z 200000%Z s [("first", TimedCache.mkItem 2%nat 121000%Z)] []
              Hnd eq_refl Hle) as (_ & _ & _ & Hkept & _ & Hgone).
  split; [exact Hnd|]. split; [reflexivity|]. split; [exact Hle|].
  split; [exact Hkept | exact Hgone].
Defined.

Lemma addNode_raises_on_missing_node_witness :
  "svc.ping" <> EmptyString
  /\ walk (Js.split Js.dot "svc.ping") (root (this Sample.routed)) = None
  /\ addNode_outcome RPCNode.Imported (Some "svc.ping") (Some 7%nat) Sample.routed
     = Js.Raised Sample.routed
  /\ lookup "svc.ping" (addNode RPCNode.Imported (Some "svc.ping") (Some 7%nat) Sample.routed)
     = None.
Proof.
  assert ("svc.ping" <> EmptyString) as Hk by discriminate.
  destruct (addNode_raises_on_missing_node 7%nat) as (_ & Hmissing & _).
  destruct (Hmissing "svc.ping" Sample.routed Hk eq_refl) as [Hout Hnone].
  split; [exact Hk|]. split; [reflexivity|]. split; [exact Hout | exact Hnone].
Defined.

Lemma removeNode_detaches_subtree_witness :
  let leaf := RPCNode.mk "c" ∅ (Some (RPCNode.User 2%nat)) in
  walk ["a"; "b"; "c"] (root (this Sample.routed)) = Some leaf
  /\ lookup "a.b.c" (removeNode (Some "a.b") Sample.routed) = None
  /\ "x.zz" <> EmptyString
  /\ walk (Js.split Js.dot "x.zz") (root (this Sample.routed)) = None
  /\ removeNode (Some "x.zz") Sample.routed = Sample.routed.
Proof.
  intros leaf.
  assert (walk ["a"; "b"; "c"] (root (this Sample.routed)) = Some leaf) as Hleaf
    by reflexivity.
  split; [exact Hleaf|]. split.
  - apply (proj1 removeNode_detaches_subtree Sample.routed leaf Hleaf).
  - split; [discriminate|]. split; [reflexivity|].
    apply (proj2 removeNode_detaches_subtree "x.zz" Sample.routed);
      [discriminate | reflexivity].
Defined.

Lemma handle_missing_child_only_logs_witness :
  let data := APIResponse.new None None None (Some "x.y") None None in
  let nx := RPCNode.mk "x" ∅ (Some (RPCNode.User 4%nat)) in
  APIResponse.key data = "x.y"
  /\ RPCNode.getChildren (root (this Sample.routed)) !! "x" = Some nx
  /\ RPCNode.getChildren nx !! "y" = None
  /\ handle data 0%Z Sample.routed
     = emit (ConsoleError "SimpleRPC: No such node x.y") Sample.routed.
Proof.
  intros data nx. split; [reflexivity|]. split; [reflexivity|]. split; [reflexivity|].
  apply (handle_missing_child_only_logs data 0%Z Sample.routed nx); reflexivity.
Defined.

Lemma handle_unbound_node_is_noop_witness :
  let data := APIResponse.new None None None (Some "a.b") None None in
  let nb := RPCNode.mk "b" {["c" := RPCNode.mk "c" ∅ (Some (RPCNode.User 2%nat))]} None in
  APIResponse.key data <> EmptyString
  /\ walk (Js.split Js.dot (APIResponse.key data)) (root (this Sample.routed)) = Some nb
  /\ RPCNode.rpcServer nb = None
  /\ handle data 0%Z Sample.routed = Sample.routed.
Proof.
  intros data nb. split; [discriminate|]. split; [reflexivity|]. split; [reflexivity|].
  apply (handle_unbound_node_is_noop data 0%Z Sample.routed nb);
    [discriminate | reflexivity | reflexivity].
Defined.

Lemma root_adapter_forwards_once_witness :
  let s := sendAndCallBack Sample.question None 2%nat 1000%Z Sample.fresh in
  adapter_installed s
  /\ APIResponse.key Sample.reply = EmptyString
  /\ TimedCache.map_get (APIResponse.UUID Sample.reply) (entries s)
     = Some (TimedCache.mkItem 2%nat 121000%Z)
  /\ (2000 < 121000)%Z
  /\ handle Sample.reply 2000%Z s = snd (root_handle Sample.reply 2000%Z s)
  /\ log (snd (root_handle Sample.reply 2000%Z s))
     = log s ++ [Invoke 2%nat Sample.reply; WsSend (encode Sample.reply false)].
Proof.
  intros s.
  destruct (root_adapter_forwards_once Sample.reply 2000%Z s) as (_ & Hhandle & Hlive & _).
  split; [reflexivity|]. split; [reflexivity|]. split; [reflexivity|]. split; [reflexivity|].
  split.
  - apply Hhandle; reflexivity.
  - apply (Hlive 2%nat 121000%Z); reflexivity.
Defined.

Lemma callback_fires_once_witness :
  let s := Sample.fresh in
  let s1 := sendAndCallBack Sample.question None 2%nat 1000%Z s in
  let s2 := handle Sample.reply 2000%Z s1 in
  adapter_installed s
  /\ APIResponse.key Sample.reply = EmptyString
  /\ APIResponse.UUID Sample.reply = APIResponse.UUID Sample.question
  /\ (2000 < 1000 + TimedCache.ttl (server_cache (this s)))%Z
  /\ log s2 = log s1 ++ [Invoke 2%nat Sample.reply;
                         WsSend (encode Sample.reply false)]
  /\ (forall t2, handle Sample.reply t2 s2 = s2).
Proof.
  intros s s1 s2.
  split; [reflexivity|]. split; [reflexivity|]. split; [reflexivity|]. split; [reflexivity|].
  destruct (callback_fires_once 2%nat Sample.question Sample.reply None 1000%Z 2000%Z s)
    as (Hlog & _ & _ & Hagain); [reflexivity | reflexivity | reflexivity | reflexivity |].
  split; [exact Hlog | exact Hagain].
Defined.

(** ** More on the registry *)

Section CacheOps.
Context {K V : Type} `{EqDecision K}.
Import TimedCache.

Implicit Types (c : TimedCache.t K V) (m : list (K * CacheItem V)) (key : K).

Lemma map_get_set_ne key key' item m :
  key <> key' -> map_get key' (map_set key item m) = map_get key' m.
Proof.
  intros Hne. induction m as [|[k old] m IH]; simpl.
  - by rewrite decide_False.
  - destruct (decide (k = key)) as [->|Hk]; simpl.
    + by rewrite !decide_False.
    + by rewrite IH.
Qed.

Lemma map_set_length_present key item m :
  is_Some (map_get key m) -> length (map_set key item m) = length m.
Proof.
  induction m as [|[k old] m IH]; simpl; [by intros [? ?]|].
  destruct (decide (k = key)); simpl; [done|]. intros Hs. by rewrite IH.
Qed.

Lemma map_set_length_absent key item m :
  map_get key m = None -> length (map_set key item m) = S (length m).
Proof.
  induction m as [|[k old] m IH]; simpl; [done|].
  destruct (decide (k = key)); simpl; [done|]. intros Hs. by rewrite IH.
Qed.

Lemma map_get_Some_In key item m : map_get key m = Some item -> In (key, item) m.
Proof.
  induction m as [|[k i] m IH]; simpl; [done|].
  destruct (decide (k = key)) as [->|Hne].
  - intros [= ->]. by left.
  - intros Hm. right. by apply IH.
Qed.

Lemma filter_keys_unique (keep : K * CacheItem V -> bool) m :
  NoDup (map fst m) -> NoDup (map fst (List.filter keep m)).
Proof.
  induction m as [|[k i] m IH]; simpl; [done|].
  intros [Hk Hm]%NoDup_cons. destruct (keep (k, i)); simpl; [|by apply IH].
  apply NoDup_cons. split; [|by apply IH].
  intros Hin. apply Hk. apply list_elem_of_In in Hin. apply list_elem_of_In.
  apply in_map_iff in Hin as (e & <- & He). apply filter_In in He as [He _].
  by apply in_map.
Qed.

(** X1. [set] at time [now] followed by [get] at time [later]: the value
    comes back as long as [later] is before [now + ttl], and from that
    instant on [get] returns [undefined], whatever the store held. *)
Theorem set_then_get (now later : Z) key (v : V) c :
  fst (get later key (set now key v c))
  = if (later <? now + ttl c)%Z then Some v else None.
Proof.
  unfold get, set. simpl. rewrite map_get_set_eq. simpl.
  by destruct (later <? now + ttl c)%Z.
Qed.

(** X2. [get] never changes the entries of other keys.  When it returns
    a value, the store is as it was and holds that value under the key
    with an expiry after [now]; when it returns [undefined], the store
    has no entry for the key afterwards (an entry whose time has come is
    evicted by the read). *)
Theorem get_evicts_lazily (now : Z) key c :
  let r := fst (get now key c) in
  let c' := snd (get now key c) in
  (forall key', key' <> key -> map_get key' (cache c') = map_get key' (cache c))
  /\ match r with
     | Some v => c' = c
                 /\ exists e, map_get key (cache c) = Some (mkItem v e) /\ (now < e)%Z
     | None => map_get key (cache c') = None
               /\ (forall item, map_get key (cache c) = Some item -> (expiry item <= now)%Z)
     end.
Proof.
  unfold get. destruct (map_get key (cache c)) as [item|] eqn:Hget.
  - destruct (Z.ltb_spec now (expiry item)); simpl.
    + split; [done|]. split; [done|]. exists (expiry item). by destruct item.
    + split; [by intros; apply map_get_delete_ne|].
      split; [apply map_get_delete_eq|]. by intros ? [= <-].
  - simpl. split; [by intros; apply map_get_delete_ne|].
    split; [apply map_get_delete_eq | done].
Qed.

(** X3. [set] replaces: afterwards the key has exactly the new value with
    expiry [now + ttl], every other key has what it had, a store with
    one entry per key still has one entry per key, and the number of
    entries grows by one for a new key and not at all for a key already
    stored. *)
Theorem set_replaces (now : Z) key (v : V) c :
  let c' := set now key v c in
  map_get key (cache c') = Some (mkItem v (now + ttl c)%Z)
  /\ (forall key', key' <> key -> map_get key' (cache c') = map_get key' (cache c))
  /\ (NoDup (map fst (cache c)) -> NoDup (map fst (cache c')))
  /\ length (cache c') =
       match map_get key (cache c) with
       | Some _ => length (cache c)
       | None => S (length (cache c))
       end
  /\ ttl c' = ttl c.
Proof.
  simpl. split; [apply map_get_set_eq|]. split; [by intros; apply map_get_set_ne|].
  split; [apply map_set_NoDup|]. split; [|done].
  destruct (map_get key (cache c)) eqn:Hget.
  - apply map_set_length_present. by rewrite Hget.
  - by apply map_set_length_absent.
Qed.

(** X4. After [remove] of a key, [get] of that key returns [undefined] at
    every time, and [get] of any other key returns what it returned
    before. *)
Theorem remove_then_get (now : Z) key c :
  fst (get now key (remove key c)) = None
  /\ (forall key', key' <> key ->
        fst (get now key' (remove key c)) = fst (get now key' c)).
Proof.
  split.
  - unfold get, remove. simpl. by rewrite map_get_delete_eq.
  - intros key' Hne. unfold get, remove. simpl. rewrite map_get_delete_ne by done.
    destruct (map_get key' (cache c)) as [item|]; [|done].
    by destruct (now <? expiry item)%Z.
Qed.

End CacheOps.

(** ** More on the sweep and on replies *)

Section SweepAll.
Context {H World : Type} `{RPCServer H World}.
Import TimedCache.

Implicit Types (s : State (H:=H) (World:=World)) (data : APIResponse.t).

Lemma map_delete_fresh {K V} `{EqDecision K} (key : K) (m : list (K * CacheItem V)) :
  key ∉ map fst m -> map_delete key m = m.
Proof.
  induction m as [|[k item] m IH]; simpl; [done|].
  intros [Hne Hnotin]%not_elem_of_cons.
  rewrite decide_False by done. by rewrite IH.
Qed.

Lemma map_delete_middle {K V} `{EqDecision K} (key : K) item
    (before after : list (K * CacheItem V)) :
  NoDup (map fst (before ++ (key, item) :: after)) ->
  map_delete key (before ++ (key, item) :: after) = before ++ after.
Proof.
  rewrite map_app. simpl. intros Hnd.
  apply NoDup_app in Hnd as (_ & Hdisj & Hnd).
  apply NoDup_cons in Hnd as [Hafter _].
  induction before as [|[k i] before IH]; simpl.
  - rewrite decide_True by done. by apply map_delete_fresh.
  - destruct (decide (k = key)) as [->|Hne].
    + exfalso. apply (Hdisj key); simpl; left.
    + rewrite IH; [done|]. intros x Hx. apply Hdisj. simpl. by right.
Qed.

Lemma invocations_app (l1 l2 : list (Event (H:=H))) :
  invocations (l1 ++ l2) = invocations l1 ++ invocations l2.
Proof.
  induction l1 as [|e l1 IH]; simpl; [done|]. destruct e; simpl; by rewrite ?IH.
Qed.

Lemma invocations_forwarded re s : invocations (forwarded re s) = [].
Proof. by destruct re. Qed.

Lemma settles_entries now l s kept :
  entries s = kept ++ l ->
  NoDup (map fst (kept ++ l)) ->
  entries (fold_left (settle now) l s) = kept ++ List.filter (live now) l.
Proof.
  revert s kept. induction l as [|[k item] l IH]; intros s kept Hs Hnd; cbn [fold_left].
  - by rewrite Hs.
  - rewrite settle_spec. cbn [List.filter]. unfold live at 1. cbn [snd].
    destruct (Z.leb_spec (expiry item) now) as [Hle|Hgt].
    + replace (now <? expiry item)%Z with false by (symmetry; apply Z.ltb_ge; lia).
      apply IH.
      * unfold entries in *. simpl. rewrite Hs. by apply map_delete_middle.
      * rewrite map_app in *. simpl in Hnd.
        apply NoDup_app in Hnd as (Hk & Hdisj & Hl).
        apply NoDup_cons in Hl as [_ Hl]. apply NoDup_app. split; [done|]. split; [|done].
        intros x Hx Hin. apply (Hdisj x Hx). by right.
    + replace (now <? expiry item)%Z with true by (symmetry; apply Z.ltb_lt; lia).
      rewrite (IH s (kept ++ [(k, item)])).
      * by rewrite <- app_assoc.
      * by rewrite <- app_assoc.
      * by rewrite <- app_assoc.
Qed.

Lemma settles_invocations now l s :
  invocations (log (fold_left (settle now) l s))
  = invocations (log s) ++ List.map timeout_call (List.filter (expired now) l).
Proof.
  revert s. induction l as [|[k item] l IH]; intros s; cbn [fold_left List.filter].
  - by rewrite app_nil_r.
  - rewrite IH, settle_spec. unfold expired at 2. cbn [snd].
    destruct (expiry item <=? now)%Z; [|done].
    simpl. rewrite invocations_app. simpl. rewrite invocations_forwarded.
    by rewrite <- app_assoc.
Qed.

Lemma settles_frame now l s :
  let s' := fold_left (settle now) l s in
  root (this s') = root (this s)
  /\ websocket_client (this s') = websocket_client (this s)
  /\ status (this s') = status (this s)
  /\ bin_first (this s') = bin_first (this s).
Proof.
  revert s. induction l as [|[k item] l IH]; intros s; cbn [fold_left]; [done|].
  destruct (IH (settle now s (k, item))) as (-> & -> & -> & ->).
  rewrite settle_spec. by destruct (expiry item <=? now)%Z.
Qed.

(** X5. One run of the sweep at time [now], on a client whose
    transport has left the connecting state, so that [send] does not
    raise, and on a registry with one entry per key: the sweep returns;
    the entries left are exactly those whose expiry is after [now], in
    their old order; the handlers called are exactly those of the other
    entries, once each, in insertion order, each with the timeout
    envelope of its key; the trie is untouched. *)
Theorem sweep_removes_exactly_expired (now : Z) s :
  send_raises s = false ->
  NoDup (map fst (entries s)) ->
  sweep_outcome now s = Js.Returned (sweep now s)
  /\ entries (sweep now s) = List.filter (live now) (entries s)
  /\ invocations (log (sweep now s))
     = invocations (log s) ++ List.map timeout_call (List.filter (expired now) (entries s))
  /\ root (this (sweep now s)) = root (this s).
Proof.
  intros Hquiet Hnd. split.
  { unfold sweep. rewrite sweep_outcome_unfold. by rewrite sweep_rest_quiet. }
  rewrite sweep_unfold by done. split; [|split].
  - by apply (settles_entries now (entries s) s []).
  - apply settles_invocations.
  - apply settles_frame.
Qed.

Lemma settles_noop now (l : list (string * CacheItem H)) s :
  (forall entry, In entry l -> (now < expiry (snd entry))%Z) ->
  fold_left (settle now) l s = s.
Proof.
  induction l as [|[k item] l IH]; intros Hlive; cbn [fold_left]; [done|].
  rewrite settle_spec.
  assert (now < expiry item)%Z as Hlt by (apply (Hlive (k, item)); by left).
  replace (expiry item <=? now)%Z with false by (symmetry; apply Z.leb_gt; lia).
  apply IH. intros entry Hin. apply Hlive. by right.
Qed.

(** X6. A run of the sweep at a time when no entry's expiry has come
    returns the state as it was: nothing is called, sent or deleted. *)
Theorem sweep_without_expired_is_noop (now : Z) s :
  (forall entry, In entry (entries s) -> (now < expiry (snd entry))%Z) ->
  sweep now s = s.
Proof.
  intros Hlive. unfold sweep. rewrite sweep_outcome_unfold.
  by rewrite sweep_rest_noop.
Qed.

(** X7. A reply that comes when the entry of its UUID has reached its
    expiry, but before a sweep has delivered the timeout: the dispatch
    deletes the entry and calls nobody, so the handler gets neither the
    reply nor, later, the timeout envelope. *)
Theorem late_reply_discards_callback data (now : Z) s item :
  adapter_installed s ->
  APIResponse.key data = EmptyString ->
  map_get (APIResponse.UUID data) (entries s) = Some item ->
  (expiry item <= now)%Z ->
  let s' := handle data now s in
  s' = set_server_cache (remove (APIResponse.UUID data) (server_cache (this s))) s
  /\ log s' = log s /\ world s' = world s
  /\ map_get (APIResponse.UUID data) (entries s') = None.
Proof.
  intros Hroot Hk Hget Hle s'.
  assert (s' = set_server_cache (remove (APIResponse.UUID data) (server_cache (this s))) s)
    as ->.
  { subst s'. rewrite (handle_root _ _ _ Hroot Hk).
    by rewrite (root_handle_expired _ _ _ _ Hget Hle). }
  split; [done|]. split; [done|]. split; [done|].
  unfold entries. simpl. apply map_get_delete_eq.
Qed.

(** X8. A reply whose UUID has no entry in the registry is dropped: the
    dispatch returns the state as it was. *)
Theorem unsolicited_reply_is_dropped data (now : Z) s :
  adapter_installed s ->
  APIResponse.key data = EmptyString ->
  map_get (APIResponse.UUID data) (entries s) = None ->
  handle data now s = s.
Proof.
  intros Hroot Hk Hget. rewrite (handle_root _ _ _ Hroot Hk).
  by rewrite (root_handle_miss _ _ _ Hget).
Qed.

(** X9. On a client whose transport has left the connecting state, so
    that [send] does not raise: once a sweep has run at a time when the
    entry of a key had reached its expiry, a reply with that UUID,
    whenever it comes, is dropped: after the timeout envelope the
    handler is not called again. *)
Theorem reply_after_timeout_is_dropped data (now later : Z) s item :
  send_raises s = false ->
  adapter_installed s ->
  APIResponse.key data = EmptyString ->
  map_get (APIResponse.UUID data) (entries s) = Some item ->
  (expiry item <= now)%Z ->
  handle data later (sweep now s) = sweep now s.
Proof.
  intros Hquiet Hroot Hk Hget Hle.
  assert (adapter_installed (sweep now s)) as Hroot'.
  { unfold adapter_installed. rewrite sweep_unfold by done.
    destruct (settles_frame now (entries s) s) as (-> & _). exact Hroot. }
  rewrite (handle_root _ _ _ Hroot' Hk).
  enough (map_get (APIResponse.UUID data) (entries (sweep now s)) = None) as Hnone
    by (by rewrite (root_handle_miss _ _ _ Hnone)).
  assert (forall l s0,
            (map_get (APIResponse.UUID data) (entries s0) = None
             \/ exists i, In (APIResponse.UUID data, i) l /\ (expiry i <= now)%Z) ->
            map_get (APIResponse.UUID data) (entries (fold_left (settle now) l s0))
            = None) as Hgone.
  { induction l as [|[k i] l IH]; intros s0 Hcase; cbn [fold_left].
    - destruct Hcase as [Hnone|(i & [] & _)]. exact Hnone.
    - apply IH. destruct Hcase as [Hnone|(i' & [[= -> ->]|Hin] & Hle')].
      + left. by apply settle_gone.
      + left. rewrite settle_spec.
        replace (expiry i' <=? now)%Z with true by (symmetry; apply Z.leb_le; lia).
        unfold entries. simpl. apply map_get_delete_eq.
      + right. eauto. }
  rewrite sweep_unfold by done. apply Hgone. right. exists item. split; [|done].
  by apply map_get_Some_In.
Qed.

(** X10. On a client whose transport has left the connecting state, so
    that [send] does not raise: after a sweep at time [now], a second
    sweep at that time or earlier finds nothing to do and returns the
    state as it is. *)
Theorem sweep_twice_is_sweep_once (now earlier : Z) s :
  send_raises s = false ->
  NoDup (map fst (entries s)) ->
  (earlier <= now)%Z ->
  sweep_outcome earlier (sweep now s) = Js.Returned (sweep now s)
  /\ sweep earlier (sweep now s) = sweep now s.
Proof.
  intros Hquiet Hnd Hle.
  enough (sweep_outcome earlier (sweep now s) = Js.Returned (sweep now s)) as Hout
    by (split; [exact Hout | unfold sweep at 1; by rewrite Hout]).
  rewrite sweep_outcome_unfold. apply sweep_rest_noop.
  intros entry Hin. rewrite sweep_unfold in Hin by done.
  rewrite (settles_entries now (entries s) s []) in Hin by done.
  simpl in Hin. apply filter_In in Hin as [_ Hlive].
  unfold live in Hlive. apply Z.ltb_lt in Hlive. lia.
Qed.

(** X11. A request sent with [sendAndCallBack] at time [t0], on a client
    whose transport has left the connecting state, and never answered:
    a sweep at a time before [t0 + ttl] leaves its entry in place, and a
    sweep at [t0 + ttl] or later calls its handler with the timeout
    envelope of its UUID and leaves no entry for it. *)
Theorem unanswered_request_times_out (message : APIResponse.t) (useBin : option bool)
    (h : H) (t0 now : Z) s :
  send_raises s = false ->
  NoDup (map fst (entries s)) ->
  let s1 := sendAndCallBack message useBin h t0 s in
  let expiry := (t0 + ttl (server_cache (this s)))%Z in
  ((now < expiry)%Z ->
   map_get (APIResponse.UUID message) (entries (sweep now s1))
   = Some (mkItem h expiry))
  /\ ((expiry <= now)%Z ->
      In (h, timeout_request (APIResponse.UUID message))
         (invocations (log (sweep now s1)))
      /\ map_get (APIResponse.UUID message) (entries (sweep now s1)) = None).
Proof.
  intros Hquiet Hnd s1 expiry.
  assert (send_raises s1 = false) as Hquiet1
    by (subst s1; unfold sendAndCallBack; by rewrite send_spec).
  assert (entries s1 = map_set (APIResponse.UUID message) (mkItem h expiry) (entries s))
    as Hs1 by (subst s1; unfold sendAndCallBack; by rewrite send_spec).
  assert (NoDup (map fst (entries s1))) as Hnd1 by (rewrite Hs1; by apply map_set_NoDup).
  assert (map_get (APIResponse.UUID message) (entries s1) = Some (mkItem h expiry))
    as Hget by (rewrite Hs1; apply map_get_set_eq).
  assert (In (APIResponse.UUID message, mkItem h expiry) (entries s1)) as Hin
    by (by apply map_get_Some_In).
  pose proof (settles_entries now (entries s1) s1 [] eq_refl Hnd1) as Hentries.
  rewrite <- sweep_unfold in Hentries by done. simpl in Hentries.
  split.
  - intros Hlt. apply map_get_In.
    + rewrite Hentries. by apply filter_keys_unique.
    + rewrite Hentries. apply filter_In. split; [done|].
      unfold live. simpl. by apply Z.ltb_lt.
  - intros Hle. split.
    + rewrite sweep_unfold by done. rewrite settles_invocations. apply in_or_app. right.
      change (h, timeout_request (APIResponse.UUID message))
        with (timeout_call (APIResponse.UUID message, mkItem h expiry)).
      apply in_map. apply filter_In. split; [done|].
      unfold expired. simpl. by apply Z.leb_le.
    + destruct (map_get (APIResponse.UUID message) (entries (sweep now s1)))
        as [item|] eqn:Hafter; [|done].
      exfalso.
      assert (In (APIResponse.UUID message, item) (entries (sweep now s1))) as Hin'
        by (by apply map_get_Some_In).
      rewrite Hentries in Hin'. apply filter_In in Hin' as [Hin' Hlive].
      pose proof (map_get_In _ _ _ Hnd1 Hin') as Hget'.
      rewrite Hget in Hget'. injection Hget' as <-.
      unfold live in Hlive. simpl in Hlive. apply Z.ltb_lt in Hlive. lia.
Qed.

End SweepAll.

(** ** More on routes *)

Section Routes.
Context {H World : Type} `{RPCServer H World}.

Implicit Types (s : State (H:=H) (World:=World)) (data : APIResponse.t)
  (node : RPCNode.t H) (keys : list string).

(** Joining the segments of a key gives the key back, so two keys with
    the same segments are the same key. *)
Lemma join_split sep k : Js_join.join sep (Js.split sep k) = k.
Proof.
  induction k as [|c k IH]; [done|]. simpl.
  destruct (Ascii.eqb_spec c sep) as [->|Hne].
  - destruct (Js.split sep k) as [|seg segs] eqn:Hs; [by apply split_nonempty in Hs|].
    rewrite <- IH. reflexivity.
  - destruct (Js.split sep k) as [|seg segs] eqn:Hs; [by apply split_nonempty in Hs|].
    rewrite <- IH. by destruct segs.
Qed.

Lemma split_inj sep k k' : Js.split sep k = Js.split sep k' -> k = k'.
Proof. intros Heq. by rewrite <- (join_split sep k), Heq, join_split. Qed.

Lemma bind_path_twice keys (h1 h2 : H) node :
  bind_path keys h2 (bind_path keys h1 node) = bind_path keys h2 node.
Proof.
  revert node. induction keys as [|k keys IH]; intros node; simpl; [done|].
  unfold RPCNode.set_children, RPCNode.getChildren. simpl.
  rewrite lookup_insert_eq, insert_insert_eq. by rewrite IH.
Qed.

Lemma bind_path_commute keys1 keys2 (h1 h2 : H) node :
  keys1 <> keys2 ->
  bind_path keys1 h1 (bind_path keys2 h2 node)
  = bind_path keys2 h2 (bind_path keys1 h1 node).
Proof.
  revert keys2 node. induction keys1 as [|k1 keys1 IH]; intros keys2 node Hne.
  - destruct keys2 as [|k2 keys2]; [done|]. reflexivity.
  - destruct keys2 as [|k2 keys2]; [reflexivity|].
    cbn [bind_path]. unfold RPCNode.set_children, RPCNode.getChildren. cbn [RPCNode.children RPCNode._name RPCNode._rpcServer].
    destruct (decide (k1 = k2)) as [<-|Hk].
    + rewrite !lookup_insert_eq, !insert_insert_eq.
      rewrite IH by congruence. reflexivity.
    + rewrite !lookup_insert_ne by done.
      f_equal. by apply insert_insert_ne.
Qed.

Lemma unlink_path_any keys node target :
  keys <> [] ->
  walk keys node = Some target ->
  exists node',
    unlink_path keys node = Some node'
    /\ (forall rest, walk (keys ++ rest) node' = None)
    /\ (forall keys', ~ keys `prefix_of` keys' ->
                      handler_at keys' node' = handler_at keys' node)
    /\ walk (removelast keys) node' <> None.
Proof.
  intros Hne Hw.
  destruct (exists_last Hne) as (init & k & ->).
  rewrite walk_app in Hw.
  destruct (walk init node) as [parent|] eqn:Hparent; [|done].
  assert (is_Some (RPCNode.getChildren parent !! k)) as Hk.
  { simpl in Hw. destruct (RPCNode.getChildren parent !! k); [eauto | done]. }
  destruct (unlink_path_found init k node parent Hparent Hk)
    as (node' & Hu & Hp & Hgone & Hother).
  exists node'. split; [exact Hu|]. split.
  - intros rest. rewrite <- app_assoc. apply Hgone.
  - split; [exact Hother|]. rewrite removelast_last. by rewrite Hp.
Qed.

Lemma removeNode_found key s r :
  key <> EmptyString ->
  unlink_path (Js.split Js.dot key) (root (this s)) = Some r ->
  removeNode (Some key) s = set_root r s.
Proof.
  intros Hk Hu. unfold removeNode. simpl. rewrite eqb_empty_false by done. by rewrite Hu.
Qed.

(** X12. A dispatch whose key is not empty and resolves to an object of
    the caller calls that object once with the envelope and sends what
    it returns unless that is [null]; the client itself (trie, registry,
    transport) is as before. *)
Theorem handle_calls_the_route data (now : Z) s (h : H) :
  APIResponse.key data <> EmptyString ->
  lookup (APIResponse.key data) s = Some (RPCNode.User h) ->
  handle data now s = answered h data s
  /\ this (handle data now s) = this s
  /\ invocations (log (handle data now s)) = invocations (log s) ++ [(h, data)].
Proof.
  intros Hk Hlookup.
  assert (handle data now s = answered h data s) as ->.
  { rewrite (handle_routed _ _ _ _ Hk Hlookup). simpl. apply call_then_send. }
  split; [done|]. split; [done|]. unfold answered. cbn [log].
  rewrite invocations_app. cbn [invocations]. by rewrite invocations_forwarded.
Qed.

(** Binding a handler on a path that exists leaves the shape of the trie
    as it was: the paths that exist are the same before and after. *)
Lemma walk_bind_existing keys keys' (h : H) node target :
  walk keys node = Some target ->
  walk keys' (bind_path keys h node) = None <-> walk keys' node = None.
Proof.
  revert keys' node. induction keys as [|k keys IH]; intros keys' node Hw.
  - destruct keys'; [done|]. reflexivity.
  - simpl in Hw.
    destruct (RPCNode.getChildren node !! k) as [child|] eqn:Hchild; [|done].
    destruct keys' as [|k' keys']; [done|].
    cbn [bind_path walk]. rewrite Hchild.
    unfold RPCNode.set_children, RPCNode.getChildren in *.
    cbn [RPCNode.children].
    destruct (decide (k' = k)) as [->|Hne].
    + rewrite lookup_insert_eq, Hchild. by apply IH.
    + by rewrite lookup_insert_ne.
Qed.

(** Whether [addNode] with this copy of the library gets to its last
    line: the one-file copy always does, the other only on a path all
    of whose nodes exist. *)
Lemma addNode_returns copy key (h : H) s :
  key <> EmptyString ->
  copy = RPCNode.OneFile \/ walk (Js.split Js.dot key) (root (this s)) <> None ->
  addNode_outcome copy (Some key) (Some h) s
  = Js.Returned (set_root (bind_path (Js.split Js.dot key) h (root (this s))) s).
Proof.
  intros Hk [->|Hw]; [by apply addNode_one_file|].
  destruct (walk (Js.split Js.dot key) (root (this s))) as [target|] eqn:Hwalk; [|done].
  by apply (addNode_found _ _ _ _ target).
Qed.

(** A line on the console and a call of [addNode] can come in either
    order. *)
Lemma addNode_emit copy key (h : H) e s :
  key <> EmptyString ->
  addNode copy (Some key) (Some h) (emit e s) = emit e (addNode copy (Some key) (Some h) s).
Proof.
  intros Hk. unfold addNode.
  destruct (addNode_cases copy key h s Hk) as [[Hout Hwhy]|(Hout & -> & Hmissing)];
    rewrite Hout.
  - by rewrite (addNode_returns copy key h (emit e s) Hk Hwhy).
  - by rewrite (addNode_imported_missing key h (emit e s) Hk Hmissing).
Qed.

(** X13. [addNode] with a key that is not empty.  With the copy of the
    library that [part_001] imports, whose [RPCNode.create] raises, the
    call raises exactly when a node of the path is missing, and the
    client is then as before; in every other case, and always with the
    one-file copy, the key resolves to the new handler.  Either way
    every other key, the empty one included, resolves to what it
    resolved to before, and log and registry are untouched. *)
Theorem addNode_changes_one_key (copy : RPCNode.Copy) (key : string) (h : H) s :
  key <> EmptyString ->
  let outcome := addNode_outcome copy (Some key) (Some h) s in
  let s' := addNode copy (Some key) (Some h) s in
  (Js.raised outcome = true <->
     copy = RPCNode.Imported /\ walk (Js.split Js.dot key) (root (this s)) = None)
  /\ (if Js.raised outcome then s' = s /\ lookup key s' = None
      else lookup key s' = Some (RPCNode.User h))
  /\ (forall key', key' <> key -> lookup key' s' = lookup key' s)
  /\ log s' = log s
  /\ entries s' = entries s.
Proof.
  intros Hk outcome s'. subst outcome s'. unfold addNode.
  destruct (addNode_cases copy key h s Hk) as [[Hout Hwhy]|(Hout & Hcopy & Hmissing)];
    rewrite Hout; cbn [Js.raised Js.state_of].
  - split.
    { split; [done|]. intros [-> Hnone]. by destruct Hwhy. }
    split; [by apply lookup_bind_hit|]. split; [|done].
    intros key' Hne. apply lookup_bind_other. intros Heq. by apply split_inj in Heq.
  - split; [done|]. split; [|done]. split; [done|].
    unfold lookup, handler_at. rewrite eqb_empty_false by done. by rewrite Hmissing.
Qed.

(** X14. Binding a second handler under the same key replaces the first:
    the state is the one reached by binding the second alone, with
    either copy of the library (with the one whose [RPCNode.create]
    raises, both sides are the state as it was when a node of the path
    is missing). *)
Theorem addNode_last_wins (copy : RPCNode.Copy) (key : string) (h1 h2 : H) s :
  key <> EmptyString ->
  addNode copy (Some key) (Some h2) (addNode copy (Some key) (Some h1) s)
  = addNode copy (Some key) (Some h2) s.
Proof.
  intros Hk. unfold addNode at 2.
  destruct (addNode_cases copy key h1 s Hk) as [[Hout Hwhy]|(Hout & _)];
    rewrite Hout; cbn [Js.state_of]; [|done].
  unfold addNode. rewrite (addNode_returns copy key h2 s Hk Hwhy).
  rewrite addNode_returns; [|done|].
  - cbn [Js.state_of]. unfold set_root. simpl. by rewrite bind_path_twice.
  - right. simpl.
    destruct (bind_path_reaches (Js.split Js.dot key) h1 (root (this s))) as (n & -> & _).
    done.
Qed.

(** X15. Routes under two different keys can be added in either order:
    the resulting states are equal, with either copy of the library
    (with the one whose [RPCNode.create] raises, a call on a path with
    a missing node changes nothing, before the other call as after
    it). *)
Theorem addNode_commutes (copy : RPCNode.Copy) (key1 key2 : string) (h1 h2 : H) s :
  key1 <> key2 ->
  addNode copy (Some key1) (Some h1) (addNode copy (Some key2) (Some h2) s)
  = addNode copy (Some key2) (Some h2) (addNode copy (Some key1) (Some h1) s).
Proof.
  intros Hne.
  destruct (String.eqb_spec key1 EmptyString) as [->|Hk1].
  { change (addNode copy (Some EmptyString) (Some h1) ?s0)
      with (emit (ConsoleError "SimpleRPC: key cannot be empty") s0).
    symmetry. apply addNode_emit. by intros ->. }
  destruct (String.eqb_spec key2 EmptyString) as [->|Hk2].
  { change (addNode copy (Some EmptyString) (Some h2) ?s0)
      with (emit (ConsoleError "SimpleRPC: key cannot be empty") s0).
    by apply addNode_emit. }
  assert (Js.split Js.dot key1 <> Js.split Js.dot key2) as Hsplit
    by (intros Heq; by apply split_inj in Heq).
  set (r := root (this s)).
  destruct copy.
  - (* the imported copy: a call changes the state only on a path that exists *)
    unfold addNode.
    destruct (walk (Js.split Js.dot key1) r) as [t1|] eqn:Hw1;
      destruct (walk (Js.split Js.dot key2) r) as [t2|] eqn:Hw2.
    + rewrite (addNode_found _ key2 h2 s t2 Hk2 Hw2).
      rewrite (addNode_found _ key1 h1 s t1 Hk1 Hw1). cbn [Js.state_of].
      rewrite (addNode_returns _ key1 h1 _ Hk1).
      * rewrite (addNode_returns _ key2 h2 _ Hk2).
        { cbn [Js.state_of]. unfold set_root. simpl. fold r.
          by rewrite bind_path_commute. }
        right. simpl. fold r. rewrite (walk_bind_existing _ _ _ _ _ Hw1).
        by rewrite Hw2.
      * right. simpl. fold r. rewrite (walk_bind_existing _ _ _ _ _ Hw2).
        by rewrite Hw1.
    + rewrite (addNode_imported_missing key2 h2 s Hk2 Hw2). cbn [Js.state_of].
      rewrite (addNode_found _ key1 h1 s t1 Hk1 Hw1). cbn [Js.state_of].
      rewrite (addNode_imported_missing key2 h2 _ Hk2); [done|].
      simpl. fold r. by apply (walk_bind_existing _ _ _ _ _ Hw1).
    + rewrite (addNode_imported_missing key1 h1 s Hk1 Hw1). cbn [Js.state_of].
      rewrite (addNode_found _ key2 h2 s t2 Hk2 Hw2). cbn [Js.state_of].
      rewrite (addNode_imported_missing key1 h1 _ Hk1); [done|].
      simpl. fold r. by apply (walk_bind_existing _ _ _ _ _ Hw2).
    + rewrite (addNode_imported_missing key2 h2 s Hk2 Hw2).
      rewrite (addNode_imported_missing key1 h1 s Hk1 Hw1). cbn [Js.state_of].
      rewrite (addNode_imported_missing key2 h2 s Hk2 Hw2).
      by rewrite (addNode_imported_missing key1 h1 s Hk1 Hw1).
  - unfold addNode. rewrite !addNode_one_file by done. cbn [Js.state_of].
    unfold set_root. simpl. by rewrite bind_path_commute.
Qed.

(** X16. [removeNode] with a key that is not empty and whose path exists:
    that key and every key below it resolve to nothing afterwards, every
    other key resolves to what it resolved to before, the nodes above
    the removed one stay, and nothing is logged. *)
Theorem removeNode_cuts_subtree (key : string) s (target : RPCNode.t H) :
  key <> EmptyString ->
  walk (Js.split Js.dot key) (root (this s)) = Some target ->
  let s' := removeNode (Some key) s in
  (forall key', Js.split Js.dot key `prefix_of` Js.split Js.dot key' ->
                lookup key' s' = None)
  /\ (forall key', ~ Js.split Js.dot key `prefix_of` Js.split Js.dot key' ->
                   lookup key' s' = lookup key' s)
  /\ walk (removelast (Js.split Js.dot key)) (root (this s')) <> None
  /\ log s' = log s /\ world s' = world s /\ entries s' = entries s.
Proof.
  intros Hk Hw s'.
  destruct (unlink_path_any _ _ _ (split_nonempty Js.dot key) Hw)
    as (r & Hu & Hgone & Hother & Habove).
  assert (s' = set_root r s) as ->.
  { subst s'. by apply removeNode_found. }
  assert (Js.split Js.dot key <> [EmptyString]) as Hnot.
  { intros Heq. apply Hk. by apply (split_inj Js.dot). }
  split; [|split; [|split; [exact Habove | done]]].
  - intros key' [rest Hrest]. unfold lookup, handler_at. simpl root.
    destruct (String.eqb_spec key' EmptyString) as [->|Hk'].
    + exfalso. simpl in Hrest.
      destruct (Js.split Js.dot key) as [|k1 ks] eqn:Hs; [by apply split_nonempty in Hs|].
      destruct ks; [|done]. simpl in Hrest. injection Hrest as <- _. done.
    + by rewrite Hrest, Hgone.
  - intros key' Hpre. unfold lookup. simpl root.
    destruct (String.eqb key' EmptyString).
    + apply (Hother []). intros [rest Hrest]. symmetry in Hrest.
      apply app_eq_nil in Hrest as [Hnil _]. by apply split_nonempty in Hnil.
    + by apply Hother.
Qed.

(** X17. Adding a route and removing it again, with either copy of the
    library: the key resolves to nothing, and so does every key below
    it, also those that resolved to something before the route was
    added; every other key resolves as it did before the two calls.
    (With the copy whose [RPCNode.create] raises and a path with a
    missing node, neither call changes the client.) *)
Theorem addNode_then_removeNode (copy : RPCNode.Copy) (key : string) (h : H) s :
  key <> EmptyString ->
  let s' := removeNode (Some key) (addNode copy (Some key) (Some h) s) in
  (forall key', Js.split Js.dot key `prefix_of` Js.split Js.dot key' ->
                lookup key' s' = None)
  /\ (forall key', ~ Js.split Js.dot key `prefix_of` Js.split Js.dot key' ->
                   lookup key' s' = lookup key' s).
Proof.
  intros Hk s'.
  assert (forall l, l `prefix_of` [EmptyString] -> l = [] \/ l = [EmptyString]) as Hsingle.
  { intros l [rest Hrest]. destruct l as [|x l]; [by left|]. right.
    destruct l; simpl in Hrest; [by injection Hrest as <- | done]. }
  assert (~ Js.split Js.dot key `prefix_of` [EmptyString]) as Hroot.
  { intros [Hnil|Hone]%Hsingle; [by apply split_nonempty in Hnil|].
    apply Hk. by apply (split_inj Js.dot). }
  destruct (addNode_cases copy key h s Hk) as [[Hout _]|(Hout & _ & Hmissing)].
  - assert (addNode copy (Some key) (Some h) s
            = set_root (bind_path (Js.split Js.dot key) h (root (this s))) s) as Hadd
      by (unfold addNode; by rewrite Hout).
    subst s'. rewrite Hadd.
    destruct (bind_path_reaches (Js.split Js.dot key) h (root (this s))) as (n & Hn & _).
    destruct (unlink_path_any _ _ _ (split_nonempty Js.dot key) Hn)
      as (r & Hu & Hgone & Hother & _).
    rewrite (removeNode_found key _ r Hk) by exact Hu.
    split.
    + intros key' [rest Hrest]. unfold lookup, handler_at. simpl root.
      destruct (String.eqb_spec key' EmptyString) as [->|Hk'].
      * exfalso. apply Hroot. by exists rest.
      * by rewrite Hrest, Hgone.
    + intros key' Hpre.
      assert (key' <> key) as Hne by (intros ->; by apply Hpre).
      transitivity
        (lookup key' (set_root (bind_path (Js.split Js.dot key) h (root (this s))) s)).
      * unfold lookup. simpl root.
        destruct (String.eqb key' EmptyString); [|by apply Hother].
        apply (Hother []). intros [rest Hrest]. symmetry in Hrest.
        apply app_eq_nil in Hrest as [Hnil _]. by apply split_nonempty in Hnil.
      * apply lookup_bind_other. intros Heq. by apply split_inj in Heq.
  - assert (addNode copy (Some key) (Some h) s = s) as Hadd
      by (unfold addNode; by rewrite Hout).
    assert (s' = s) as ->.
    { subst s'. rewrite Hadd. unfold removeNode. simpl.
      rewrite eqb_empty_false by done.
      by rewrite (unlink_path_missing _ _ (split_nonempty Js.dot key) Hmissing). }
    split; [|done].
    intros key' [rest Hrest]. unfold lookup, handler_at.
    destruct (String.eqb_spec key' EmptyString) as [->|Hk'].
    + exfalso. apply Hroot. by exists rest.
    + by rewrite Hrest, walk_app, Hmissing.
Qed.

End Routes.

(** ** What a dispatch and the other operations leave alone *)

Section Frames.
Context {H World : Type} `{RPCServer H World}.
Import TimedCache.

Implicit Types (s : State (H:=H) (World:=World)) (data : APIResponse.t).

(** Two states whose clients differ at most in the registry's entries,
    and there at most by the entry of [uuid] being deleted. *)
Lemma root_handle_frame data now s :
  let s' := snd (root_handle data now s) in
  root (this s') = root (this s)
  /\ websocket_client (this s') = websocket_client (this s)
  /\ status (this s') = status (this s)
  /\ bin_first (this s') = bin_first (this s)
  /\ (entries s' = entries s
      \/ entries s' = map_delete (APIResponse.UUID data) (entries s)).
Proof.
  destruct (map_get (APIResponse.UUID data) (entries s)) as [item|] eqn:Hget.
  - destruct (Z.lt_ge_cases now (expiry item)) as [Hlt|Hge].
    + rewrite (root_handle_live _ _ _ _ Hget Hlt). simpl. repeat split. by right.
    + rewrite (root_handle_expired _ _ _ _ Hget Hge). simpl. repeat split. by right.
  - rewrite (root_handle_miss _ _ _ Hget). simpl. repeat split. by left.
Qed.

Lemma call_frame server data now s :
  let s' := snd (call server data now s) in
  root (this s') = root (this s)
  /\ websocket_client (this s') = websocket_client (this s)
  /\ status (this s') = status (this s)
  /\ bin_first (this s') = bin_first (this s)
  /\ (entries s' = entries s
      \/ entries s' = map_delete (APIResponse.UUID data) (entries s)).
Proof.
  destruct server as [|h]; [apply root_handle_frame|].
  simpl. rewrite call_user_spec. simpl. repeat split. by left.
Qed.

Lemma handle_frame data now s :
  let s' := handle data now s in
  root (this s') = root (this s)
  /\ websocket_client (this s') = websocket_client (this s)
  /\ status (this s') = status (this s)
  /\ bin_first (this s') = bin_first (this s)
  /\ (entries s' = entries s
      \/ entries s' = map_delete (APIResponse.UUID data) (entries s)).
Proof.
  unfold handle. destruct (String.eqb _ _).
  - destruct (RPCNode.rpcServer _) as [server|]; [apply call_frame|].
    repeat split. by left.
  - destruct (walk _ _) as [node|]; [|repeat split; by left].
    destruct (RPCNode.rpcServer node) as [server|]; [|repeat split; by left].
    pose proof (call_frame server data now s) as Hcall.
    destruct (call server data now s) as [[re|] s1]; [|exact Hcall].
    rewrite send_spec. exact Hcall.
Qed.

(** X18. No dispatch changes the trie, the transport record or the
    flags of the client, and in the registry it touches at most the
    entry of the envelope's own UUID: every other key keeps its entry,
    and no key gains one. *)
Theorem handle_touches_only_own_entry data (now : Z) s :
  let s' := handle data now s in
  root (this s') = root (this s)
  /\ websocket_client (this s') = websocket_client (this s)
  /\ status (this s') = status (this s)
  /\ bin_first (this s') = bin_first (this s)
  /\ (forall uuid, uuid <> APIResponse.UUID data ->
                   map_get uuid (entries s') = map_get uuid (entries s))
  /\ (forall uuid, map_get uuid (entries s) = None -> map_get uuid (entries s') = None).
Proof.
  destruct (handle_frame data now s) as (Hroot & Hws & Hst & Hbf & Hentries).
  simpl. split; [done|]. split; [done|]. split; [done|]. split; [done|].
  destruct Hentries as [->| ->].
  - done.
  - split.
    + intros uuid Hne. by apply map_get_delete_ne.
    + intros uuid Hnone. by apply map_get_delete_None.
Qed.

Lemma sweep_frame now s :
  let s' := sweep now s in
  root (this s') = root (this s)
  /\ websocket_client (this s') = websocket_client (this s)
  /\ status (this s') = status (this s)
  /\ bin_first (this s') = bin_first (this s).
Proof.
  unfold sweep. rewrite sweep_outcome_unfold.
  by apply (sweep_rest_keeps
              (fun s0 => root (this s0) = root (this s)
                         /\ websocket_client (this s0) = websocket_client (this s)
                         /\ status (this s0) = status (this s)
                         /\ bin_first (this s0) = bin_first (this s))).
Qed.

Lemma step_status s s' : step s s' -> status (this s) = true -> status (this s') = true.
Proof.
  intros Hstep Hst. destruct Hstep.
  - done.
  - done.
  - unfold onmessage. destruct event; simpl; try done;
      by destruct (handle_frame (handleStr data) now s) as (_ & _ & -> & _)
      || by destruct (handle_frame (handleBin data) now s) as (_ & _ & -> & _).
  - by destruct (sweep_frame now s) as (_ & _ & -> & _).
  - done.
  - by destruct (addNode_state copy key server s) as [->|[[line ->]|(k & h & Hk & ->)]].
  - unfold removeNode. destruct (String.eqb _ _); [done|]. by destruct (unlink_path _ _).
  - done.
  - by rewrite send_spec.
  - unfold sendAndCallBack. by rewrite send_spec.
Qed.

(** X19. The flag behind [getStatus] is set by the [open] event and by
    nothing cleared: once true it is true after every operation and
    event, [close()] included, so after [open] and [close()] the client
    still reports true while the transport is not open. *)
Theorem status_is_never_cleared s s' :
  step s s' ->
  getStatus s = true ->
  getStatus s' = true
  /\ getStatus (close (on_open s)) = true
  /\ WebSocket.is_open (websocket_client (this (close (on_open s)))) = false.
Proof.
  intros Hstep Hst. split; [by apply (step_status s s')|]. split; [done|].
  apply close_not_open.
Qed.

(** X20. A second [sendAndCallBack] under the UUID of a first replaces
    its handler: the registry (one entry per key) holds for that UUID
    the second handler with the second expiry and nothing else, so the
    first handler can no longer be called through this UUID, neither by
    a reply nor by the sweep. *)
Theorem second_registration_replaces (m1 m2 : APIResponse.t) (ub1 ub2 : option bool)
    (h1 h2 : H) (t1 t2 : Z) s :
  NoDup (map fst (entries s)) ->
  APIResponse.UUID m1 = APIResponse.UUID m2 ->
  let s' := sendAndCallBack m2 ub2 h2 t2 (sendAndCallBack m1 ub1 h1 t1 s) in
  NoDup (map fst (entries s'))
  /\ (forall item, In (APIResponse.UUID m2, item) (entries s') ->
                   item = mkItem h2 (t2 + ttl (server_cache (this s)))%Z)
  /\ map_get (APIResponse.UUID m2) (entries s')
     = Some (mkItem h2 (t2 + ttl (server_cache (this s)))%Z)
  /\ length (entries s') = length (entries (sendAndCallBack m1 ub1 h1 t1 s)).
Proof.
  intros Hnd Hid s'.
  assert (entries s' =
          map_set (APIResponse.UUID m2) (mkItem h2 (t2 + ttl (server_cache (this s)))%Z)
            (map_set (APIResponse.UUID m2)
               (mkItem h1 (t1 + ttl (server_cache (this s)))%Z) (entries s))) as Hs'.
  { subst s'. unfold sendAndCallBack. rewrite !send_spec, Hid. reflexivity. }
  assert (NoDup (map fst (entries s'))) as Hnd'.
  { rewrite Hs'. by apply map_set_NoDup, map_set_NoDup. }
  assert (map_get (APIResponse.UUID m2) (entries s')
          = Some (mkItem h2 (t2 + ttl (server_cache (this s)))%Z)) as Hget.
  { rewrite Hs'. apply map_get_set_eq. }
  split; [exact Hnd'|]. split; [|split; [exact Hget|]].
  - intros item Hin. pose proof (map_get_In _ _ _ Hnd' Hin) as Hget'.
    rewrite Hget in Hget'. by injection Hget' as <-.
  - rewrite Hs'. unfold sendAndCallBack. rewrite send_spec, Hid.
    apply map_set_length_present. unfold entries. simpl.
    rewrite map_get_set_eq. eauto.
Qed.

End Frames.

(** ** What holds in every reachable state, continued *)

Section Reach.
Context {H World : Type} `{RPCServer H World}.
Import TimedCache.

Implicit Types (s : State (H:=H) (World:=World)) (data : APIResponse.t).

Lemma unlink_path_walk keys (node node' : RPCNode.t H) :
  keys <> [] -> unlink_path keys node = Some node' -> walk keys node <> None.
Proof.
  revert node node'. induction keys as [|k keys IH]; intros node node' Hne Hu; [done|].
  simpl in *. destruct (RPCNode.getChildren node !! k) as [child|]; [|done].
  destruct keys as [|k2 keys]; [done|].
  destruct (unlink_path (k2 :: keys) child) as [child'|] eqn:Hc; [|done].
  by apply (IH child child').
Qed.

Lemma unlink_path_name keys (node node' : RPCNode.t H) :
  unlink_path keys node = Some node' -> RPCNode.name node' = RPCNode.name node.
Proof.
  destruct keys as [|k keys]; simpl; [by intros [= <-]|].
  destruct (RPCNode.getChildren node !! k); [|done].
  destruct keys; [by intros [= <-]|].
  destruct (unlink_path _ _); [by intros [= <-] | done].
Qed.

Lemma bind_path_name keys (h : H) (node : RPCNode.t H) :
  RPCNode.name (bind_path keys h node) = RPCNode.name node.
Proof. by destruct keys. Qed.

Lemma routes_are_users_root s s' :
  root (this s') = root (this s) -> routes_are_users s -> routes_are_users s'.
Proof. unfold routes_are_users. by intros ->. Qed.

Lemma settings_kept_same s s' :
  root (this s') = root (this s) ->
  websocket_client (this s') = websocket_client (this s) ->
  ttl (server_cache (this s')) = ttl (server_cache (this s)) ->
  interval (server_cache (this s')) = interval (server_cache (this s)) ->
  timer (server_cache (this s')) = timer (server_cache (this s)) ->
  settings_kept s -> settings_kept s'.
Proof. unfold settings_kept. by intros -> -> -> -> ->. Qed.

Lemma root_handle_cache data now s :
  let s' := snd (root_handle data now s) in
  ttl (server_cache (this s')) = ttl (server_cache (this s))
  /\ interval (server_cache (this s')) = interval (server_cache (this s))
  /\ timer (server_cache (this s')) = timer (server_cache (this s)).
Proof.
  destruct (map_get (APIResponse.UUID data) (entries s)) as [item|] eqn:Hget.
  - destruct (Z.lt_ge_cases now (expiry item)) as [Hlt|Hge].
    + by rewrite (root_handle_live _ _ _ _ Hget Hlt).
    + by rewrite (root_handle_expired _ _ _ _ Hget Hge).
  - by rewrite (root_handle_miss _ _ _ Hget).
Qed.

Lemma handle_cache data now s :
  let s' := handle data now s in
  ttl (server_cache (this s')) = ttl (server_cache (this s))
  /\ interval (server_cache (this s')) = interval (server_cache (this s))
  /\ timer (server_cache (this s')) = timer (server_cache (this s)).
Proof.
  assert (forall server,
            let s' := snd (call server data now s) in
            ttl (server_cache (this s')) = ttl (server_cache (this s))
            /\ interval (server_cache (this s')) = interval (server_cache (this s))
            /\ timer (server_cache (this s')) = timer (server_cache (this s))) as Hcall.
  { intros [|h]; [apply root_handle_cache|]. simpl. by rewrite call_user_spec. }
  unfold handle. destruct (String.eqb _ _).
  - destruct (RPCNode.rpcServer _) as [server|]; [apply Hcall | done].
  - destruct (walk _ _) as [node|]; [|done].
    destruct (RPCNode.rpcServer node) as [server|]; [|done].
    specialize (Hcall server).
    destruct (call server data now s) as [[re|] s1]; [|exact Hcall].
    rewrite send_spec. exact Hcall.
Qed.

Lemma sweep_cache now s :
  let s' := sweep now s in
  ttl (server_cache (this s')) = ttl (server_cache (this s))
  /\ interval (server_cache (this s')) = interval (server_cache (this s))
  /\ timer (server_cache (this s')) = timer (server_cache (this s)).
Proof.
  unfold sweep. rewrite sweep_outcome_unfold.
  by apply (sweep_rest_keeps
              (fun s0 => ttl (server_cache (this s0)) = ttl (server_cache (this s))
                         /\ interval (server_cache (this s0))
                            = interval (server_cache (this s))
                         /\ timer (server_cache (this s0)) = timer (server_cache (this s)))).
Qed.

Lemma step_routes_settings s s' :
  step s s' ->
  routes_are_users s /\ settings_kept s ->
  routes_are_users s' /\ settings_kept s'.
Proof.
  intros Hstep [Hroutes Hset]. destruct Hstep.
  - split; [done|]. unfold settings_kept in *. simpl. tauto.
  - done.
  - assert (forall d, routes_are_users (handle d now s) /\ settings_kept (handle d now s))
      as Hhandle.
    { intros d. destruct (handle_frame d now s) as (Hr & Hw & _).
      destruct (handle_cache d now s) as (Ht & Hi & Htm).
      split; [by apply (routes_are_users_root s) | by apply (settings_kept_same s)]. }
    unfold onmessage. destruct event; by try apply Hhandle.
  - destruct (sweep_frame now s) as (Hr & Hw & _).
    destruct (sweep_cache now s) as (Ht & Hi & Htm).
    split; [by apply (routes_are_users_root s) | by apply (settings_kept_same s)].
  - split; [done|]. unfold settings_kept in *. simpl. tauto.
  - destruct (addNode_state copy key server s) as [->|[[line ->]|(k & h & Hk & ->)]];
      [done|done|]. split.
    + intros keys Hne. simpl.
      destruct (decide (keys = Js.split Js.dot k)) as [->|Hother].
      * by rewrite bind_path_hit.
      * rewrite bind_path_other by done. by apply Hroutes.
    + unfold settings_kept in *. simpl. by rewrite bind_path_name.
  - unfold removeNode. destruct (String.eqb _ _); [done|].
    destruct (unlink_path _ _) as [r|] eqn:Hu; [|done]. split.
    + intros keys Hne. simpl.
      pose proof (unlink_path_walk _ _ _ (split_nonempty _ _) Hu) as Hw.
      destruct (walk _ (root (this s))) as [target|] eqn:Htarget; [|done].
      destruct (unlink_path_any _ _ _ (split_nonempty _ _) Htarget)
        as (r' & Hu' & Hgone & Hother & _).
      rewrite Hu in Hu'. injection Hu' as <-.
      destruct (decide (Js.split Js.dot (default EmptyString key) `prefix_of` keys))
        as [[rest ->]|Hpre].
      * unfold handler_at. by rewrite Hgone.
      * rewrite Hother by done. by apply Hroutes.
    + unfold settings_kept in *. simpl. by rewrite (unlink_path_name _ _ _ Hu).
  - done.
  - by rewrite send_spec.
  - unfold sendAndCallBack. by rewrite send_spec.
Qed.

Lemma reachable_routes_settings s :
  reachable s -> routes_are_users s /\ settings_kept s.
Proof.
  induction 1 as [ssl url token bf w | s s' Hreach IH Hstep].
  - split; [|by repeat split].
    intros keys Hne. destruct keys as [|k keys]; [done|].
    unfold handler_at. simpl. by rewrite lookup_empty.
  - by apply (step_routes_settings s s').
Qed.

(** X21. In every state the client can reach from its constructor by its
    methods and the events of its environment: the root refers to the
    registry adapter and no other node does, so the empty key is the
    only one that reaches the registry; the registry has one entry per
    UUID; and the time to live is 120 000 ms, the sweep interval
    60 000 ms with its timer armed, the binary type of the socket
    "arraybuffer", and the root's name empty. *)
Theorem reachable_invariants s :
  reachable s ->
  adapter_installed s
  /\ routes_are_users s
  /\ NoDup (map fst (entries s))
  /\ settings_kept s.
Proof.
  intros Hreach.
  destruct (reachable_well_formed s Hreach) as [Hroot Hnd].
  destruct (reachable_routes_settings s Hreach) as [Hroutes Hset].
  done.
Qed.

(** X22. In a reachable state, a dispatch with a key that is not empty
    leaves the whole client as it was, the registry included: a request
    for a route never uses up a pending callback, whatever its UUID. *)
Theorem routed_request_keeps_registry data (now : Z) s :
  reachable s ->
  APIResponse.key data <> EmptyString ->
  this (handle data now s) = this s.
Proof.
  intros Hreach Hk.
  destruct (reachable_routes_settings s Hreach) as [Hroutes _].
  unfold handle. rewrite eqb_empty_false by done.
  destruct (walk _ _) as [node|] eqn:Hw; [|done].
  destruct (RPCNode.rpcServer node) as [[|h]|] eqn:Hserver; [| |done].
  - exfalso. apply (Hroutes (Js.split Js.dot (APIResponse.key data))).
    + apply split_nonempty.
    + unfold handler_at. by rewrite Hw.
  - simpl. rewrite call_user_spec.
    destruct (fst (handle_method h data (world s))); [by rewrite send_spec | done].
Qed.

End Reach.

(** ** More on the codecs and the address *)

Section Loopback.
Context {H World : Type} `{RPCServer H World}.


End Loopback.

Lemma encodeURI_app a b : Js.encodeURI (a +:+ b) = Js.encodeURI a +:+ Js.encodeURI b.
Proof.
  induction a as [|c a IH]; [done|]. simpl.
  destruct (Js.uri_unescaped c); simpl; by rewrite IH.
Qed.

(** X26. For every [url] and [token], the address the constructor opens
    is the scheme, [ws] when [ssl] is true and [wss] when it is false,
    then "://", then the escaped [url], then "?token=" when the token is
    empty and nothing when it is not: no character of a token ever
    enters the address. *)
Theorem address_shape (ssl : bool) (url token : string) :
  address ssl url token
  = (if ssl then "ws" else "wss") +:+ "://" +:+ Js.encodeURI url
    +:+ (if String.eqb token EmptyString then "?token=" else EmptyString).
Proof.
  unfold address. rewrite !encodeURI_app.
  destruct token as [|c token]; destruct ssl; reflexivity.
Qed.

(** ** The further theorems at work on the sample client *)

Lemma sweep_removes_exactly_expired_witness :
  let s := Cases.waiting in
  send_raises s = false
  /\ NoDup (map fst (entries s))
  /\ sweep_outcome 200000%Z s = Js.Returned (sweep 200000%Z s)
  /\ entries (sweep 123000%Z s) = [("late", TimedCache.mkItem 2%nat 125000%Z)]
  /\ entries (sweep 200000%Z s) = []
  /\ invocations (log (sweep 200000%Z s))
     = [(3%nat, timeout_request "early"); (2%nat, timeout_request "late")].
Proof.
  intros s.
  assert (NoDup (map fst (entries s))) as Hnd.
  { apply NoDup_cons. split; [|apply NoDup_singleton].
    intros Hin. apply list_elem_of_singleton in Hin. discriminate. }
  destruct (sweep_removes_exactly_expired 123000%Z s eq_refl Hnd) as (_ & Hkept & _).
  destruct (sweep_removes_exactly_expired 200000%Z s eq_refl Hnd)
    as (Hout & Hentries & Hcalls & _).
  split; [reflexivity|]. split; [exact Hnd|]. split; [exact Hout|].
  split; [exact Hkept|]. split; [exact Hentries | exact Hcalls].
Defined.

Lemma sweep_without_expired_is_noop_witness :
  (forall entry, In entry (entries Sample.pending) ->
                 (1000 < TimedCache.expiry (snd entry))%Z)
  /\ sweep 1000%Z Sample.pending = Sample.pending.
Proof.
  assert (forall entry, In entry (entries Sample.pending) ->
                        (1000 < TimedCache.expiry (snd entry))%Z) as Hlive.
  { intros entry [<-|[<-|[]]]; reflexivity. }
  split; [exact Hlive|]. exact (sweep_without_expired_is_noop 1000%Z Sample.pending Hlive).
Defined.

Lemma late_reply_discards_callback_witness :
  let s := Sample.pending in
  let item := TimedCache.mkItem 3%nat 121000%Z in
  adapter_installed s
  /\ APIResponse.key Cases.early_reply = EmptyString
  /\ TimedCache.map_get (APIResponse.UUID Cases.early_reply) (entries s) = Some item
  /\ (TimedCache.expiry item <= 121000)%Z
  /\ log (handle Cases.early_reply 121000%Z s) = log s
  /\ TimedCache.map_get "early" (entries (handle Cases.early_reply 121000%Z s)) = None.
Proof.
  intros s item.
  assert (TimedCache.expiry item <= 121000)%Z as Hle by discriminate.
  destruct (late_reply_discards_callback Cases.early_reply 121000%Z s item
              eq_refl eq_refl eq_refl Hle) as (_ & Hlog & _ & Hgone).
  split; [reflexivity|]. split; [reflexivity|]. split; [reflexivity|]. split; [exact Hle|].
  split; [exact Hlog | exact Hgone].
Defined.

Lemma unsolicited_reply_is_dropped_witness :
  adapter_installed Sample.fresh
  /\ APIResponse.key Sample.reply = EmptyString
  /\ TimedCache.map_get (APIResponse.UUID Sample.reply) (entries Sample.fresh) = None
  /\ handle Sample.reply 5%Z Sample.fresh = Sample.fresh.
Proof.
  split; [reflexivity|]. split; [reflexivity|]. split; [reflexivity|].
  exact (unsolicited_reply_is_dropped Sample.reply 5%Z Sample.fresh eq_refl eq_refl eq_refl).
Defined.

Lemma reply_after_timeout_is_dropped_witness :
  let s := Cases.waiting in
  let item := TimedCache.mkItem 3%nat 121000%Z in
  send_raises s = false
  /\ adapter_installed s
  /\ APIResponse.key Cases.early_reply = EmptyString
  /\ TimedCache.map_get (APIResponse.UUID Cases.early_reply) (entries s) = Some item
  /\ (TimedCache.expiry item <= 200000)%Z
  /\ handle Cases.early_reply 300000%Z (sweep 200000%Z s) = sweep 200000%Z s.
Proof.
  intros s item.
  assert (TimedCache.expiry item <= 200000)%Z as Hle by discriminate.
  split; [reflexivity|].
  split; [reflexivity|]. split; [reflexivity|]. split; [reflexivity|]. split; [exact Hle|].
  exact (reply_after_timeout_is_dropped Cases.early_reply 200000%Z 300000%Z s item
           eq_refl eq_refl eq_refl eq_refl Hle).
Defined.

Lemma sweep_twice_is_sweep_once_witness :
  let s := Cases.waiting in
  send_raises s = false
  /\ NoDup (map fst (entries s))
  /\ (150000 <= 200000)%Z
  /\ sweep 150000%Z (sweep 200000%Z s) = sweep 200000%Z s.
Proof.
  intros s.
  assert (NoDup (map fst (entries s))) as Hnd.
  { apply NoDup_cons. split; [|apply NoDup_singleton].
    intros Hin. apply list_elem_of_singleton in Hin. discriminate. }
  assert (150000 <= 200000)%Z as Hle by discriminate.
  split; [reflexivity|]. split; [exact Hnd|]. split; [exact Hle|].
  exact (proj2 (sweep_twice_is_sweep_once 200000%Z 150000%Z s eq_refl Hnd Hle)).
Defined.

Lemma unanswered_request_times_out_witness :
  let s := Cases.opened in
  let s1 := sendAndCallBack Sample.question None 2%nat 1000%Z s in
  send_raises s = false
  /\ NoDup (map fst (entries s))
  /\ (2000 < 1000 + TimedCache.ttl (server_cache (this s)))%Z
  /\ TimedCache.map_get "X" (entries (sweep 2000%Z s1))
     = Some (TimedCache.mkItem 2%nat 121000%Z)
  /\ (1000 + TimedCache.ttl (server_cache (this s)) <= 121000)%Z
  /\ In (2%nat, timeout_request "X") (invocations (log (sweep 121000%Z s1)))
  /\ TimedCache.map_get "X" (entries (sweep 121000%Z s1)) = None.
Proof.
  intros s s1.
  assert (NoDup (map fst (entries s))) as Hnd by apply NoDup_nil_2.
  assert (2000 < 1000 + TimedCache.ttl (server_cache (this s)))%Z as Hlt by reflexivity.
  assert (1000 + TimedCache.ttl (server_cache (this s)) <= 121000)%Z as Hle by discriminate.
  destruct (unanswered_request_times_out Sample.question None 2%nat 1000%Z 2000%Z s
              eq_refl Hnd) as [Hkept _].
  destruct (unanswered_request_times_out Sample.question None 2%nat 1000%Z 121000%Z s
              eq_refl Hnd) as [_ Hfired].
  destruct (Hfired Hle) as [Hcalled Hgone].
  split; [reflexivity|].
  split; [exact Hnd|]. split; [exact Hlt|]. split; [exact (Hkept Hlt)|].
  split; [exact Hle|]. split; [exact Hcalled | exact Hgone].
Defined.

Lemma handle_calls_the_route_witness :
  APIResponse.key Cases.ping <> EmptyString
  /\ lookup (APIResponse.key Cases.ping) Sample.routed = Some (RPCNode.User 2%nat)
  /\ handle Cases.ping 0%Z Sample.routed = answered 2%nat Cases.ping Sample.routed
  /\ invocations (log (handle Cases.ping 0%Z Sample.routed)) = [(2%nat, Cases.ping)].
Proof.
  assert (APIResponse.key Cases.ping <> EmptyString) as Hk by discriminate.
  destruct (handle_calls_the_route Cases.ping 0%Z Sample.routed 2%nat Hk eq_refl)
    as (Hstate & _ & Hcalls).
  split; [exact Hk|]. split; [reflexivity|]. split; [exact Hstate | exact Hcalls].
Defined.

Lemma addNode_changes_one_key_witness :
  let s1 := addNode RPCNode.Imported (Some "svc.ping") (Some 7%nat) Sample.routed in
  let s2 := addNode RPCNode.OneFile (Some "svc.ping") (Some 7%nat) Sample.routed in
  let s3 := addNode RPCNode.Imported (Some "a.b") (Some 7%nat) Sample.routed in
  "svc.ping" <> EmptyString
  /\ "a.b" <> EmptyString
  /\ s1 = Sample.routed
  /\ lookup "svc.ping" s1 = None
  /\ lookup "svc.ping" s2 = Some (RPCNode.User 7%nat)
  /\ lookup "a.b" s3 = Some (RPCNode.User 7%nat)
  /\ "svc.pin" <> "svc.ping"
  /\ lookup "svc.pin" s2 = lookup "svc.pin" Sample.routed.
Proof.
  intros s1 s2 s3.
  assert ("svc.ping" <> EmptyString) as Hk by discriminate.
  assert ("a.b" <> EmptyString) as Hk' by discriminate.
  assert ("svc.pin" <> "svc.ping") as Hne by discriminate.
  destruct (addNode_changes_one_key RPCNode.Imported "svc.ping" 7%nat Sample.routed Hk)
    as (_ & [Hsame Hmiss] & _).
  destruct (addNode_changes_one_key RPCNode.OneFile "svc.ping" 7%nat Sample.routed Hk)
    as (_ & Hhit & Hother & _).
  destruct (addNode_changes_one_key RPCNode.Imported "a.b" 7%nat Sample.routed Hk')
    as (_ & Hhit' & _).
  split; [exact Hk|]. split; [exact Hk'|]. split; [exact Hsame|]. split; [exact Hmiss|].
  split; [exact Hhit|]. split; [exact Hhit'|]. split; [exact Hne|]. exact (Hother _ Hne).
Defined.

Lemma addNode_last_wins_witness :
  "a.b.c" <> EmptyString
  /\ addNode RPCNode.Imported (Some "a.b.c") (Some 8%nat)
       (addNode RPCNode.Imported (Some "a.b.c") (Some 9%nat) Sample.routed)
     = addNode RPCNode.Imported (Some "a.b.c") (Some 8%nat) Sample.routed
  /\ addNode RPCNode.OneFile (Some "a.b.c") (Some 8%nat) Sample.routed
     = addNode RPCNode.OneFile (Some "a.b.c") (Some 8%nat)
         (addNode RPCNode.OneFile (Some "x") (Some 4%nat) Sample.fresh).
Proof.
  assert ("a.b.c" <> EmptyString) as Hk by discriminate.
  split; [exact Hk|]. split.
  - exact (addNode_last_wins RPCNode.Imported "a.b.c" 9%nat 8%nat Sample.routed Hk).
  - exact (addNode_last_wins RPCNode.OneFile "a.b.c" 2%nat 8%nat
             (addNode RPCNode.OneFile (Some "x") (Some 4%nat) Sample.fresh) Hk).
Defined.

Lemma addNode_commutes_witness :
  "a.b.c" <> "x"
  /\ Sample.routed
     = addNode RPCNode.OneFile (Some "x") (Some 4%nat)
         (addNode RPCNode.OneFile (Some "a.b.c") (Some 2%nat) Sample.fresh)
  /\ addNode RPCNode.Imported (Some "a.b.c") (Some 5%nat)
       (addNode RPCNode.Imported (Some "x") (Some 6%nat) Sample.routed)
     = addNode RPCNode.Imported (Some "x") (Some 6%nat)
         (addNode RPCNode.Imported (Some "a.b.c") (Some 5%nat) Sample.routed).
Proof.
  assert ("a.b.c" <> "x") as Hne by discriminate.
  split; [exact Hne|]. split.
  - exact (addNode_commutes RPCNode.OneFile "a.b.c" "x" 2%nat 4%nat Sample.fresh Hne).
  - exact (addNode_commutes RPCNode.Imported "a.b.c" "x" 5%nat 6%nat Sample.routed Hne).
Defined.

Lemma removeNode_cuts_subtree_witness :
  let s' := removeNode (Some "a.b") Sample.routed in
  "a.b" <> EmptyString
  /\ walk (Js.split Js.dot "a.b") (root (this Sample.routed)) = Some Cases.node_b
  /\ Js.split Js.dot "a.b" `prefix_of` Js.split Js.dot "a.b.c"
  /\ lookup "a.b.c" s' = None
  /\ ~ Js.split Js.dot "a.b" `prefix_of` Js.split Js.dot "x"
  /\ lookup "x" s' = lookup "x" Sample.routed.
Proof.
  intros s'.
  assert ("a.b" <> EmptyString) as Hk by discriminate.
  assert (Js.split Js.dot "a.b" `prefix_of` Js.split Js.dot "a.b.c") as Hbelow
    by (by exists ["c"]).
  assert (~ Js.split Js.dot "a.b" `prefix_of` Js.split Js.dot "x") as Hnot
    by (intros [rest Hrest]; discriminate).
  destruct (removeNode_cuts_subtree "a.b" Sample.routed Cases.node_b Hk eq_refl)
    as (Hgone & Hother & _).
  split; [exact Hk|]. split; [reflexivity|]. split; [exact Hbelow|].
  split; [exact (Hgone _ Hbelow)|]. split; [exact Hnot | exact (Hother _ Hnot)].
Defined.

Lemma addNode_then_removeNode_witness :
  let s' := removeNode (Some "a.b")
              (addNode RPCNode.Imported (Some "a.b") (Some 9%nat) Sample.routed) in
  "a.b" <> EmptyString
  /\ Js.split Js.dot "a.b" `prefix_of` Js.split Js.dot "a.b.c"
  /\ lookup "a.b.c" Sample.routed = Some (RPCNode.User 2%nat)
  /\ lookup "a.b.c" s' = None.
Proof.
  intros s'.
  assert ("a.b" <> EmptyString) as Hk by discriminate.
  assert (Js.split Js.dot "a.b" `prefix_of` Js.split Js.dot "a.b.c") as Hbelow
    by (by exists ["c"]).
  destruct (addNode_then_removeNode RPCNode.Imported "a.b" 9%nat Sample.routed Hk)
    as (Hgone & _).
  split; [exact Hk|]. split; [exact Hbelow|]. split; [reflexivity|]. exact (Hgone _ Hbelow).
Defined.

Lemma status_is_never_cleared_witness :
  step Cases.opened (close Cases.opened)
  /\ getStatus Cases.opened = true
  /\ getStatus (close Cases.opened) = true.
Proof.
  assert (step Cases.opened (close Cases.opened)) as Hstep by constructor.
  destruct (status_is_never_cleared Cases.opened (close Cases.opened) Hstep eq_refl)
    as (Hkept & _).
  split; [exact Hstep|]. split; [reflexivity | exact Hkept].
Defined.

Lemma second_registration_replaces_witness :
  let s' := sendAndCallBack Sample.reply None 6%nat 2000%Z
              (sendAndCallBack Sample.question None 2%nat 1000%Z Sample.pending) in
  NoDup (map fst (entries Sample.pending))
  /\ APIResponse.UUID Sample.question = APIResponse.UUID Sample.reply
  /\ TimedCache.map_get "X" (entries s') = Some (TimedCache.mkItem 6%nat 122000%Z)
  /\ length (entries s') = 3%nat.
Proof.
  intros s'.
  assert (NoDup (map fst (entries Sample.pending))) as Hnd.
  { apply NoDup_cons. split; [|apply NoDup_singleton].
    intros Hin. apply list_elem_of_singleton in Hin. discriminate. }
  destruct (second_registration_replaces Sample.question Sample.reply None None
              2%nat 6%nat 1000%Z 2000%Z Sample.pending Hnd eq_refl)
    as (_ & _ & Hget & Hlen).
  split; [exact Hnd|]. split; [reflexivity|]. split; [exact Hget | exact Hlen].
Defined.

Lemma reachable_invariants_witness :
  reachable Sample.routed
  /\ adapter_installed Sample.routed
  /\ routes_are_users Sample.routed
  /\ settings_kept Sample.routed.
Proof.
  assert (reachable Sample.routed) as Hreach.
  { apply (reachable_step (addNode RPCNode.OneFile (Some "x") (Some 4%nat) Sample.fresh));
      [|constructor].
    apply (reachable_step Sample.fresh); constructor. }
  destruct (reachable_invariants Sample.routed Hreach) as (Hroot & Hroutes & _ & Hset).
  split; [exact Hreach|]. split; [exact Hroot|]. split; [exact Hroutes | exact Hset].
Defined.

Lemma routed_request_keeps_registry_witness :
  let s := sendAndCallBack Sample.question None 2%nat 1000%Z Sample.routed in
  reachable s
  /\ APIResponse.key Cases.wanderer <> EmptyString
  /\ APIResponse.UUID Cases.wanderer = APIResponse.UUID Sample.question
  /\ this (handle Cases.wanderer 2000%Z s) = this s.
Proof.
  intros s.
  assert (reachable s) as Hreach.
  { apply (reachable_step Sample.routed); [|constructor].
    apply (reachable_step (addNode RPCNode.OneFile (Some "x") (Some 4%nat) Sample.fresh));
      [|constructor].
    apply (reachable_step Sample.fresh); constructor. }
  assert (APIResponse.key Cases.wanderer <> EmptyString) as Hk by discriminate.
  split; [exact Hreach|]. split; [exact Hk|]. split; [reflexivity|].
  exact (routed_request_keeps_registry Cases.wanderer 2000%Z s Hreach Hk).
Defined.

